(** * qontract-reconcile: [reconcile/utils/amtool.py] and
      [reconcile/utils/quay_api.py]

    A shallow embedding of the two helpers and the properties of their
    contract.  Python code that raises, mutates [self] or talks to the
    outside world is written in a state-and-exception monad; the outside
    world (the file system, the spawned validator, the registry server) is
    an explicit parameter of every operation. *)

From Stdlib Require Import ZArith Lia List.
From Stdlib.Strings Require Import Ascii String Byte.
From stdpp Require Import base strings gmap list pretty.

Local Open Scope Z_scope.

(** ** Python values, exceptions and the effect monad *)

Module Py.

(** The exceptions the two files can raise or let through.
    [RequestsException] is the class of [quay_api.py]; it stores only the
    message built by its [__init__].  [OutOfFuel] is not a Python
    exception: it marks the exhaustion of the recursion bound of the
    model and is shown never to be raised. *)
Inductive exn :=
| TypeError (msg : string)
| ValueError (msg : string)
| KeyError (key : string)
| AttributeError (msg : string)
| JSONDecodeError
| UnicodeDecodeError (input : list byte)
| OSError (strerror : string)
| CalledProcessError (returncode : Z) (cmd : list string)
                     (output stderr : list byte)
| RequestsException (message : string)
| OutOfFuel.

Inductive outcome (A : Type) :=
| Ok (a : A)
| Raise (e : exn).
Arguments Ok {A} a.
Arguments Raise {A} e.

(** A computation over a mutable world [S] that returns or raises. *)
Definition M (S A : Type) : Type := S -> outcome A * S.

Definition ret {S A} (a : A) : M S A := fun s => (Ok a, s).

Definition bind {S A B} (m : M S A) (k : A -> M S B) : M S B :=
  fun s => match m s with
           | (Ok a, s') => k a s'
           | (Raise e, s') => (Raise e, s')
           end.

Definition raise {S A} (e : exn) : M S A := fun s => (Raise e, s).

Definition get {S} : M S S := fun s => (Ok s, s).

Definition modify {S} (f : S -> S) : M S unit := fun s => (Ok tt, f s).

(** [try m] runs [m] and hands its outcome to the handler site; the
    effects [m] had before raising are kept, as in Python. *)
Definition try {S A} (m : M S A) : M S (outcome A) :=
  fun s => let '(r, s') := m s in (Ok r, s').

Definition reraise {S A} (r : outcome A) : M S A :=
  match r with Ok a => ret a | Raise e => raise e end.

Definition lift_option {S A} (e : exn) (o : option A) : M S A :=
  match o with Some a => ret a | None => raise e end.

#[global] Instance M_ret {S} : MRet (M S) := @ret S.
#[global] Instance M_bind {S} : MBind (M S) :=
  fun A B k m => bind m k.

(** JSON-shaped Python values: what [r.json()] yields.  Numbers are the
    integers; a [dict] is kept as its items in insertion order. *)
#[warnings="-register-all"] Inductive value :=
| VNone
| VBool (b : bool)
| VInt (n : Z)
| VStr (s : string)
| VList (l : list value)
| VDict (items : list (string * value)).

(** [bool(v)] *)
Definition truthy (v : value) : bool :=
  match v with
  | VNone => false
  | VBool b => b
  | VInt n => negb (n =? 0)
  | VStr s => negb (String.eqb s "")
  | VList l => match l with [] => false | _ => true end
  | VDict d => match d with [] => false | _ => true end
  end.

Fixpoint assoc (k : string) (d : list (string * value)) : option value :=
  match d with
  | [] => None
  | (k', v) :: d' => if String.eqb k k' then Some v else assoc k d'
  end.

(** [v[k]] for a string key [k] *)
Definition getitem {S} (v : value) (k : string) : M S value :=
  match v with
  | VDict d => lift_option (KeyError k) (assoc k d)
  | VList _ => raise (TypeError "list indices must be integers or slices, not str")
  | VStr _ => raise (TypeError "string indices must be integers")
  | _ => raise (TypeError "object is not subscriptable")
  end.

(** [v.get(k, default)] *)
Definition dict_get {S} (v : value) (k : string) (default : value)
  : M S value :=
  match v with
  | VDict d => ret (match assoc k d with Some x => x | None => default end)
  | _ => raise (AttributeError "object has no attribute 'get'")
  end.

(** A Python [str] is held as its UTF-8 encoding; iterating over it
    yields one string per code point, that is, per lead byte. *)
Definition is_continuation (a : ascii) : bool :=
  let n := N_of_ascii a in ((128 <=? n) && (n <? 192))%N.

Definition starts_with_continuation (s : string) : bool :=
  match s with
  | String b _ => is_continuation b
  | EmptyString => false
  end.

Fixpoint str_chars (s : string) : list string :=
  match s with
  | EmptyString => []
  | String a rest =>
      match str_chars rest with
      | c :: cs =>
          if starts_with_continuation rest then String a c :: cs
          else String a EmptyString :: c :: cs
      | [] => [String a EmptyString]
      end
  end.

(** The elements [iter(v)] yields, when [v] is iterable. *)
Definition elements_of (v : value) : option (list value) :=
  match v with
  | VList l => Some l
  | VStr s => Some (VStr <$> str_chars s)
  | VDict d => Some ((fun kv => VStr (fst kv)) <$> d)
  | _ => None
  end.

Definition py_iter {S} (v : value) : M S (list value) :=
  lift_option (TypeError "object is not iterable") (elements_of v).

(** [==] between hashable values ([True == 1] and [False == 0]). *)
Definition scalar_eq (a b : value) : bool :=
  match a, b with
  | VNone, VNone => true
  | VBool x, VBool y => Bool.eqb x y
  | VInt x, VInt y => x =? y
  | VBool x, VInt y | VInt y, VBool x => y =? (if x then 1 else 0)
  | VStr x, VStr y => String.eqb x y
  | _, _ => false
  end.

Definition hashable (v : value) : bool :=
  match v with VList _ | VDict _ => false | _ => true end.

(** [s.add(v)] on a [set] held as its members without repetition.  The
    iteration order of a CPython set is unspecified; the model keeps
    insertion order and no property below depends on it. *)
Definition set_add {S} (s : list value) (v : value) : M S (list value) :=
  if hashable v then
    ret (if existsb (scalar_eq v) s then s else s ++ [v])
  else raise (TypeError "unhashable type").

(** [bytes.decode()]: strict UTF-8 (no overlong forms, no surrogates,
    nothing above U+10FFFF). *)
Definition byte_in (lo hi : N) (b : byte) : bool :=
  ((lo <=? Byte.to_N b) && (Byte.to_N b <=? hi))%N.

Definition cont (b : byte) : bool := byte_in 0x80 0xbf b.

Definition second_of_three (b0 b1 : byte) : bool :=
  if byte_in 0xe0 0xe0 b0 then byte_in 0xa0 0xbf b1
  else if byte_in 0xed 0xed b0 then byte_in 0x80 0x9f b1
  else cont b1.

Definition second_of_four (b0 b1 : byte) : bool :=
  if byte_in 0xf0 0xf0 b0 then byte_in 0x90 0xbf b1
  else if byte_in 0xf4 0xf4 b0 then byte_in 0x80 0x8f b1
  else cont b1.

Fixpoint utf8_valid (bs : list byte) : bool :=
  match bs with
  | [] => true
  | b0 :: r0 =>
      if byte_in 0x00 0x7f b0 then utf8_valid r0 else
      match r0 with
      | [] => false
      | b1 :: r1 =>
          if byte_in 0xc2 0xdf b0 then cont b1 && utf8_valid r1 else
          match r1 with
          | [] => false
          | b2 :: r2 =>
              if byte_in 0xe0 0xef b0
              then second_of_three b0 b1 && cont b2 && utf8_valid r2 else
              match r2 with
              | [] => false
              | b3 :: r3 =>
                  byte_in 0xf0 0xf4 b0 && second_of_four b0 b1
                  && cont b2 && cont b3 && utf8_valid r3
              end
          end
      end
  end.

Definition decode {S} (bs : list byte) : M S string :=
  if utf8_valid bs then ret (string_of_list_byte bs)
  else raise (UnicodeDecodeError bs).

(** [v == s] for a [str] [s] *)
Definition eq_str (v : value) (s : string) : bool :=
  match v with VStr t => String.eqb t s | _ => false end.

(** [raise v] where [v] is not an exception: Python 3 refuses the operand
    and raises [TypeError] in its place. *)
Definition raise_object {S A} (v : value) : M S A :=
  raise (TypeError "exceptions must derive from BaseException").

Definition newline : string := String (ascii_of_nat 10) EmptyString.

End Py.

Import Py.

(** ** [reconcile/utils/amtool.py] *)

Module Amtool.

Record AmtoolResult := mkAmtoolResult { is_ok : bool; message : string }.

Fixpoint remove_newlines (s : string) : string :=
  match s with
  | EmptyString => EmptyString
  | String a rest =>
      if Ascii.eqb a (ascii_of_nat 10) then remove_newlines rest
      else String a (remove_newlines rest)
  end.

Definition AmtoolResult_str (r : AmtoolResult) : string :=
  remove_newlines (message r).

Definition AmtoolResult_bool (r : AmtoolResult) : bool := is_ok r.

(** What one call of [subprocess.run] can meet: the program ran and
    exited, or it could not be started. *)
Inductive run_outcome :=
| Exited (returncode : Z) (stdout stderr : list byte)
| NotStarted (e : exn).

Record CompletedProcess := mkCompletedProcess {
  args : list string;
  returncode : Z;
  stdout : list byte;
  stderr : list byte
}.

(** The operating system as the helper sees it.  [mkstemp] proposes the
    name of the temporary file or fails; [write_error] and [flush_error]
    say whether writing to it fails; [exec] is the behaviour of the
    program named by an argument vector, given the files it can read;
    [str] renders an exception as [str(e)] does. *)
Record Env := mkEnv {
  mkstemp : gmap string string -> exn + string;
  write_error : string -> string -> option exn;
  flush_error : string -> string -> option exn;
  exec : list string -> gmap string string -> run_outcome;
  str : exn -> string
}.

(** The observable world: the files by path, the temporary files ever
    created, and the log of [run] calls with what became of them. *)
Record World := mkWorld {
  files : gmap string string;
  created : list string;
  spawned : list (list string * run_outcome)
}.

(** An open text file: its path and the data not yet flushed. *)
Record file := mkFile { name : string; buffer : string }.

(** [tempfile.NamedTemporaryFile(mode='w+')]: the file is created
    exclusively, so a name already taken is an error. *)
Definition NamedTemporaryFile (env : Env) : M World file :=
  fun w =>
    match mkstemp env (files w) with
    | inl e => (Raise e, w)
    | inr n =>
        match files w !! n with
        | Some _ => (Raise (OSError "File exists"), w)
        | None =>
            (Ok (mkFile n ""),
             mkWorld (<[n := ""]> (files w)) (created w ++ [n]) (spawned w))
        end
    end.

Definition fp_write (env : Env) (fp : file) (data : string) : M World file :=
  match write_error env (name fp) data with
  | Some e => raise e
  | None => ret (mkFile (name fp) (buffer fp +:+ data))
  end.

Definition fp_flush (env : Env) (fp : file) : M World file :=
  match flush_error env (name fp) (buffer fp) with
  | Some e => raise e
  | None =>
      modify (fun w =>
        mkWorld (<[name fp :=
                     match files w !! name fp with
                     | Some old => old +:+ buffer fp
                     | None => buffer fp
                     end]> (files w))
                (created w) (spawned w));;
      ret (mkFile (name fp) "")
  end.

(** Closing a [NamedTemporaryFile] removes it from the file system.  The
    removal itself is taken not to fail. *)
Definition fp_close (fp : file) : M World unit :=
  modify (fun w => mkWorld (delete (name fp) (files w))
                           (created w) (spawned w)).

(** [with enter as fp: body]: the file is closed when the body returns
    and when it raises. *)
Definition with_file {A} (enter : M World file) (body : file -> M World A)
  : M World A :=
  fp ← enter;
  r ← try (body fp);
  fp_close fp;;
  reraise r.

(** [subprocess.run(cmd, stdout=PIPE, stderr=PIPE, check=check)].  The
    program reads the files; what it may do to them is not modelled. *)
Definition run (env : Env) (cmd : list string) (check : bool)
  : M World CompletedProcess :=
  fun w =>
    let o := exec env cmd (files w) in
    let w' := mkWorld (files w) (created w) (spawned w ++ [(cmd, o)]) in
    match o with
    | NotStarted e => (Raise e, w')
    | Exited rc out err =>
        if check && negb (rc =? 0)
        then (Raise (CalledProcessError rc cmd out err), w')
        else (Ok (mkCompletedProcess cmd rc out err), w')
    end.

Definition _run_yaml_str_cmd (env : Env) (cmd : list string)
           (yaml_str : string) : M World AmtoolResult :=
  r ← try (with_file (NamedTemporaryFile env) (fun fp =>
             fp ← fp_write env fp yaml_str;
             fp ← fp_flush env fp;
             let cmd := cmd ++ [name fp] in
             run env cmd true));
  match r with
  | Raise e =>
      let msg := "Error running amtool: " +:+ str env e in
      ret (mkAmtoolResult false msg)
  | Ok result =>
      out ← decode (stdout result);
      ret (mkAmtoolResult true out)
  end.

Definition check_config (env : Env) (yaml_str : string)
  : M World AmtoolResult :=
  _run_yaml_str_cmd env ["amtool"; "check-config"] yaml_str.

End Amtool.

(** ** [reconcile/utils/quay_api.py] *)

Module Quay.

Inductive method := GET | PUT | POST | DELETE.

(** One call of [requests.get], [requests.put], [requests.post] or
    [requests.delete] with its keyword arguments. *)
Record Request := mkRequest {
  meth : method;
  url : string;
  params : list (string * value);
  json : option value;
  headers : list (string * string)
}.

(** What the client reads of a response: [r.status_code], [r.text] and
    [r.json()], which is [None] when the body is not JSON. *)
Record Response := mkResponse {
  status_code : Z;
  text : string;
  body : option value
}.

(** [r.ok] of [requests]: [raise_for_status] raises exactly for the
    statuses 400 to 599. *)
Definition ok (r : Response) : bool :=
  negb ((400 <=? status_code r) && (status_code r <? 600)).

Definition response_json {S} (r : Response) : M S value :=
  lift_option JSONDecodeError (body r).

(** [RequestsException.__init__] *)
Definition RequestsException_init (r : Response) : exn :=
  RequestsException
    (newline +:+ "Code: " +:+ pretty (status_code r) +:+ newline +:+ text r).

(** The registry: its answer to a request may depend on the requests it
    has received before.  Transport failures are outside the model: every
    request is answered. *)
Definition Server := list Request -> Request -> Response.

(** List objects live in a heap and are named by their address, so that
    the list stored in the cache and the list handed to the caller can be
    the same object. *)
Definition loc := nat.

Record QuayApi := mkQuayApi {
  token : string;
  organization : string;
  auth_header : list (string * string);
  team_members : gmap string loc;
  API_URL : string
}.

Record State := mkState {
  self : QuayApi;
  heap : list (list value);
  sent : list Request
}.

Definition LIMIT_FOLLOWS : Z := 15.

Definition QuayApi_init (token organization : string)
           (base_url : option string) : QuayApi :=
  mkQuayApi token organization
    [("Authorization", "Bearer " +:+ token)]
    ∅
    (match base_url with
     | Some b => if truthy (VStr b) then "https://" +:+ b +:+ "/api/v1"
                 else "https://quay.io/api/v1"
     | None => "https://quay.io/api/v1"
     end).

Definition send (srv : Server) (rq : Request) : M State Response :=
  fun st => (Ok (srv (sent st) rq),
             mkState (self st) (heap st) (sent st ++ [rq])).

Definition alloc (l : list value) : M State loc :=
  fun st => (Ok (length (heap st)),
             mkState (self st) (heap st ++ [l]) (sent st)).

Definition deref (st : State) (l : loc) : list value :=
  default [] (heap st !! l).

Definition set_team_members (team : string) (l : loc) : M State unit :=
  modify (fun st =>
    mkState (mkQuayApi (token (self st)) (organization (self st))
                       (auth_header (self st))
                       (<[team := l]> (team_members (self st)))
                       (API_URL (self st)))
            (heap st) (sent st)).

(** [self.team_members.get(team)] when it is truthy *)
Definition cache_lookup (st : State) (team : string) : option loc :=
  match team_members (self st) !! team with
  | Some l => match deref st l with
              | [] => None
              | _ :: _ => Some l
              end
  | None => None
  end.

Fixpoint collect_names (items members : list value)
  : M State (list value) :=
  match items with
  | [] => mret members
  | member :: rest =>
      n ← getitem member "name";
      members ← set_add members n;
      collect_names rest members
  end.

Definition team_members_url (st : State) (team : string) : string :=
  API_URL (self st) +:+ "/organization/" +:+ organization (self st)
  +:+ "/team/" +:+ team +:+ "/members?includePending=true".

Definition team_not_found (st : State) (team : string) : exn :=
  ValueError ("team " +:+ team +:+ " is not found in org "
              +:+ organization (self st)
              +:+ ". contact org owner to create the team manually.").

Definition team_members_request (st : State) (team : string) : Request :=
  mkRequest GET (team_members_url st team) [] None (auth_header (self st)).

Definition list_team_members (srv : Server) (team : string) (cache : bool)
  : M State loc :=
  st ← get;
  match (if cache then cache_lookup st team else None) with
  | Some cache_members => mret cache_members
  | None =>
      r ← send srv (team_members_request st team);
      if status_code r =? 404 then raise (team_not_found st team)
      else if negb (ok r) then raise (RequestsException_init r)
      else
        body ← response_json r;
        items ← getitem body "members";
        items ← py_iter items;
        members ← collect_names items [];
        members_list ← alloc members;
        set_team_members team members_list;;
        mret members_list
  end.

Definition user_request (st : State) (user : string) : Request :=
  mkRequest GET (API_URL (self st) +:+ "/users/" +:+ user) [] None
            (auth_header (self st)).

Definition user_exists (srv : Server) (user : string) : M State bool :=
  st ← get;
  r ← send srv (user_request st user);
  if negb (ok r) then mret false else mret true.

Definition team_member_url (st : State) (team user : string) : string :=
  API_URL (self st) +:+ "/organization/" +:+ organization (self st)
  +:+ "/team/" +:+ team +:+ "/members/" +:+ user.

Definition org_member_url (st : State) (user : string) : string :=
  API_URL (self st) +:+ "/organization/" +:+ organization (self st)
  +:+ "/members/" +:+ user.

Definition not_in_team_message (user team : string) : string :=
  "User " +:+ user +:+ " does not belong to team " +:+ team.

Definition team_delete_request (st : State) (user team : string) : Request :=
  mkRequest DELETE (team_member_url st team user) [] None
            (auth_header (self st)).

Definition org_delete_request (st : State) (user : string) : Request :=
  mkRequest DELETE (org_member_url st user) [] None (auth_header (self st)).

Definition team_put_request (st : State) (user team : string) : Request :=
  mkRequest PUT (team_member_url st team user) [] None
            (auth_header (self st)).

Definition remove_user_from_team (srv : Server) (user team : string)
  : M State bool :=
  st ← get;
  r ← send srv (team_delete_request st user team);
  (if negb (ok r) then
     body ← response_json r;
     message ← getitem body "message";
     let expected_message := not_in_team_message user team in
     if negb (eq_str message expected_message)
     then raise (RequestsException_init r)
     else mret tt
   else mret tt);;
  r ← send srv (org_delete_request st user);
  if negb (ok r) then raise (RequestsException_init r) else mret true.

Definition add_user_to_team (srv : Server) (user team : string)
  : M State bool :=
  members ← list_team_members srv team true;
  st ← get;
  if existsb (fun m => eq_str m user) (deref st members) then mret true
  else
    r ← send srv (team_put_request st user team);
    if negb (ok r) then raise (RequestsException_init r) else mret true.

Definition images_request (st : State) (page : value) : Request :=
  mkRequest GET (API_URL (self st) +:+ "/repository")
    ([("namespace", VStr (organization (self st)))]
       ++ (if truthy page then [("next_page", page)] else []))
    None (auth_header (self st)).

(** [images += more]: the list object at [l] is extended in place. *)
Definition extend (l : loc) (more : list value) : M State unit :=
  modify (fun st =>
    mkState (self st) (<[l := deref st l ++ more]> (heap st)) (sent st)).

(** [list_images] calls itself once per page; [fuel] bounds the calls.
    The accumulator [images] is [None] or a list object, named by its
    address: the object is extended in place and it is the object that is
    returned, so a list supplied by the caller is the list that grows. *)
Fixpoint list_images_rec (fuel : nat) (srv : Server)
         (images : option loc) (page : value) (count : Z)
  : M State loc :=
  if count >? LIMIT_FOLLOWS
  then raise_object (VStr "Too many page follows")
  else
    match fuel with
    | O => raise OutOfFuel
    | S fuel' =>
        st ← get;
        r ← send srv (images_request st page);
        if negb (ok r) then raise (RequestsException_init r)
        else
          body ← response_json r;
          repositories ← dict_get body "repositories" (VList []);
          next_page ← dict_get body "next_page" VNone;
          images ← match images with
                   | None => alloc []
                   | Some l => mret l
                   end;
          more ← py_iter repositories;
          extend images more;;
          if truthy next_page
          then list_images_rec fuel' srv (Some images) next_page (count + 1)
          else mret images
    end.

Definition list_images (srv : Server) (images : option loc)
           (page : value) (count : Z) : M State loc :=
  list_images_rec (Z.to_nat (LIMIT_FOLLOWS - count) + 1) srv
                  images page count.

Definition repo_url (st : State) (repo_name : string) : string :=
  API_URL (self st) +:+ "/repository/" +:+ organization (self st)
  +:+ "/" +:+ repo_name.

Definition checked (srv : Server) (rq : Request) : M State unit :=
  r ← send srv rq;
  if negb (ok r) then raise (RequestsException_init r) else mret tt.

Definition repo_create (srv : Server) (repo_name description : string)
           (public : bool) : M State unit :=
  st ← get;
  let visibility := if public then "public" else "private" in
  let params := VDict [("repo_kind", VStr "image");
                       ("namespace", VStr (organization (self st)));
                       ("visibility", VStr visibility);
                       ("repository", VStr repo_name);
                       ("description", VStr description)] in
  checked srv (mkRequest POST (API_URL (self st) +:+ "/repository") []
                         (Some params) (auth_header (self st))).

Definition repo_delete (srv : Server) (repo_name : string) : M State unit :=
  st ← get;
  checked srv (mkRequest DELETE (repo_url st repo_name) [] None
                         (auth_header (self st))).

Definition repo_update_description (srv : Server)
           (repo_name description : string) : M State unit :=
  st ← get;
  checked srv (mkRequest PUT (repo_url st repo_name) []
                         (Some (VDict [("description", VStr description)]))
                         (auth_header (self st))).

Definition _repo_change_visibility (srv : Server)
           (repo_name visibility : string) : M State unit :=
  st ← get;
  checked srv (mkRequest POST (repo_url st repo_name +:+ "/changevisibility")
                         []
                         (Some (VDict [("visibility", VStr visibility)]))
                         (auth_header (self st))).

Definition repo_make_public (srv : Server) (repo_name : string)
  : M State unit := _repo_change_visibility srv repo_name "public".

Definition repo_make_private (srv : Server) (repo_name : string)
  : M State unit := _repo_change_visibility srv repo_name "private".

Definition team_permission_url (st : State) (repo_name team : string)
  : string :=
  repo_url st repo_name +:+ "/permissions/team/" +:+ team.

Definition no_permission_message : string :=
  "Team does not have permission for repo.".

Definition permission_request (st : State) (repo_name team : string)
  : Request :=
  mkRequest GET (team_permission_url st repo_name team) [] None
            (auth_header (self st)).

Definition get_repo_team_permissions (srv : Server)
           (repo_name team : string) : M State value :=
  st ← get;
  r ← send srv (permission_request st repo_name team);
  if negb (ok r) then
    body ← response_json r;
    message ← getitem body "message";
    let expected_message := no_permission_message in
    if eq_str message expected_message then mret VNone
    else raise (RequestsException_init r)
  else
    body ← response_json r;
    role ← dict_get body "role" VNone;
    mret (if truthy role then role else VNone).

Definition set_repo_team_permissions (srv : Server)
           (repo_name team role : string) : M State unit :=
  st ← get;
  checked srv (mkRequest PUT (team_permission_url st repo_name team) []
                         (Some (VDict [("role", VStr role)]))
                         (auth_header (self st))).

End Quay.

(** ** Concrete environments *)

Module AmtoolScenario.
Import Amtool.

(** A rendering of [str(e)] for the concrete environments. *)
Definition show (e : exn) : string :=
  match e with
  | OSError s => s
  | CalledProcessError rc _ _ _ =>
      "Command returned non-zero exit status " +:+ pretty rc
  | _ => "error"
  end.

Definition quiet_io (exec : list string -> gmap string string -> run_outcome)
  : Env :=
  mkEnv (fun _ => inr "/tmp/tmp0") (fun _ _ => None) (fun _ _ => None)
        exec show.

(** The validator accepts and prints [SUCCESS]. *)
Definition env_success : Env :=
  quiet_io (fun _ _ => Exited 0 (list_byte_of_string "SUCCESS") []).

(** The validator accepts and prints the single byte [0xff]. *)
Definition env_not_utf8 : Env :=
  quiet_io (fun _ _ => Exited 0 [xff] []).

Definition empty_world : World := mkWorld ∅ [] [].

End AmtoolScenario.

(** ** The contract of [check_config] in the words of its description *)

Module AmtoolSpec.
Import Amtool.

(** The [run] calls made, and the temporary files created, between two
    worlds. *)
Definition runs (w w' : World) : list (list string * run_outcome) :=
  drop (length (spawned w)) (spawned w').

Definition new_tempfiles (w w' : World) : list string :=
  drop (length (created w)) (created w').

Definition exit_status (w w' : World) : option Z :=
  match runs w w' with
  | [(_, Exited rc _ _)] => Some rc
  | _ => None
  end.

Definition error_message (env : Env) (e : exn) : string :=
  "Error running amtool: " +:+ str env e.

(** What the environment does when [check_config] is called on a text:
    either a step of setting up the temporary file fails, or the validator
    is run as [amtool check-config <path>] while the file at that path
    holds the text, with the outcome the environment gives. *)
Definition validator_call (env : Env) (yaml_str : string) (w : World)
  : exn + (list string * run_outcome) :=
  match mkstemp env (files w) with
  | inl e => inl e
  | inr n =>
      match files w !! n with
      | Some _ => inl (OSError "File exists")
      | None =>
          match write_error env n yaml_str with
          | Some e => inl e
          | None =>
              match flush_error env n yaml_str with
              | Some e => inl e
              | None =>
                  let argv := ["amtool"; "check-config"; n] in
                  inr (argv, exec env argv (<[n := yaml_str]> (files w)))
              end
          end
      end
  end.

(** A result is returned; it succeeded exactly when the validator was run
    and exited with status 0; on exit 0 its output is the captured stdout;
    on a non-zero exit, and when the validator or the temporary file could
    not be set up, it failed and its output names that cause; the
    validator is run once, or not at all when the set-up fails. *)
Definition check_config_contract (env : Env) (yaml_str : string) (w : World)
  : Prop :=
  ∃ res w',
    check_config env yaml_str w = (Ok res, w') ∧
    (is_ok res = true ↔
     ∃ argv out err,
       validator_call env yaml_str w = inr (argv, Exited 0 out err)) ∧
    match validator_call env yaml_str w with
    | inr (argv, Exited rc out err) =>
        runs w w' = [(argv, Exited rc out err)] ∧
        if rc =? 0
        then res = mkAmtoolResult true (string_of_list_byte out)
        else res = mkAmtoolResult false
                     (error_message env (CalledProcessError rc argv out err))
    | inr (argv, NotStarted e) =>
        runs w w' = [(argv, NotStarted e)] ∧
        res = mkAmtoolResult false (error_message env e)
    | inl e =>
        runs w w' = [] ∧
        res = mkAmtoolResult false (error_message env e)
    end.

(** Whatever the validator prints when it exits with status 0 is UTF-8. *)
Definition utf8_on_success (env : Env) : Prop :=
  ∀ cmd fs out err, exec env cmd fs = Exited 0 out err → utf8_valid out = true.

End AmtoolSpec.

Module QuayScenario.
Import Quay.

Definition st0 : State :=
  mkState (QuayApi_init "s3cr3t" "acme" None) [] [].

(** A server that gives the same answer to every request. *)
Definition always (r : Response) : Server := fun _ _ => r.

(** A server that gives [r1] to the first request and [r2] afterwards. *)
Definition first_then (r1 r2 : Response) : Server :=
  fun h _ => match h with [] => r1 | _ :: _ => r2 end.

Definition members_body (names : list string) : value :=
  VDict [("members",
          VList ((fun n => VDict [("name", VStr n)]) <$> names))].

Definition members_response (names : list string) : Response :=
  mkResponse 200 "" (Some (members_body names)).

Definition empty_status (code : Z) : Response := mkResponse code "" None.

Definition message_response (code : Z) (msg : string) : Response :=
  mkResponse code "" (Some (VDict [("message", VStr msg)])).

Definition bad_gateway : Response :=
  mkResponse 502 "<html>Bad Gateway</html>" None.

(** The client after it has fetched the members of team [blue] from a
    server that lists [names]. *)
Definition fetched (names : list string) : State :=
  (list_team_members (always (members_response names)) "blue" false st0).2.

(** Page [k] (from 0) of a listing of [n] pages: one repository, and a
    next-page token on every page but the last. *)
Definition page_body (k n : nat) : value :=
  VDict ([("repositories", VList [VStr ("repo" +:+ pretty k)])]
         ++ (if (S k <? n)%nat
             then [("next_page", VStr ("token" +:+ pretty (S k)))]
             else [])).

(** A server whose [k]-th answer is page [k] of [n]. *)
Definition paged (n : nat) : Server :=
  fun h _ => mkResponse 200 "" (Some (page_body (length h) n)).

End QuayScenario.

(** ** The contract of the registry client in the words of its
       description *)

Module QuaySpec.
Import Quay.

(** A status of the 2xx class. *)
Definition is_2xx (r : Response) : bool :=
  (200 <=? status_code r) && (status_code r <? 300).

(** The [message] field of a response body, when there is one. *)
Definition failure_message (r : Response) : option value :=
  match body r with
  | Some (VDict d) => assoc "message" d
  | _ => None
  end.

Definition message_is (r : Response) (expected : string) : bool :=
  match failure_message r with
  | Some m => eq_str m expected
  | None => false
  end.

(** [user_exists] is a boolean probe: it returns, with [True] only on a
    successful status and [False] on every other one. *)
Definition user_exists_contract (success : Response -> bool)
           (srv : Server) (user : string) (st : State) : Prop :=
  let r := srv (sent st) (user_request st user) in
  ∃ b st', user_exists srv user st = (Ok b, st') ∧
           (b = true → success r = true) ∧
           (success r = false → b = false).

(** The part of [list_team_members] that reads the member names off a
    response. *)
Definition member_names (r : Response) : M State (list value) :=
  body ← response_json r;
  items ← getitem body "members";
  items ← py_iter items;
  collect_names items [].

(** The errors that reading a response body can raise. *)
Definition is_parse_error (e : exn) : bool :=
  match e with
  | JSONDecodeError | KeyError _ | TypeError _ | AttributeError _ => true
  | _ => false
  end.

(** The state after [rq] has been sent. *)
Definition after_send (st : State) (rq : Request) : State :=
  mkState (self st) (heap st) (sent st ++ [rq]).

(** The state after the member list [members] of [team] has been stored
    in a new list object and entered in the cache. *)
Definition after_fetch (st : State) (team : string) (members : list value)
  : State :=
  mkState (mkQuayApi (token (self st)) (organization (self st))
                     (auth_header (self st))
                     (<[team := length (heap st)]> (team_members (self st)))
                     (API_URL (self st)))
          (heap st ++ [members])
          (sent st ++ [team_members_request st team]).

(** [list_team_members], when it asks the server: the team-not-found
    error exactly on status 404, the generic error on every other
    unsuccessful status. *)
Definition team_lookup_contract (success : Response -> bool)
           (srv : Server) (team : string) (cache : bool) (st : State)
  : Prop :=
  let r := srv (sent st) (team_members_request st team) in
  let res := (list_team_members srv team cache st).1 in
  (res = Raise (team_not_found st team) ↔ status_code r = 404) ∧
  (success r = false → status_code r ≠ 404 →
   res = Raise (RequestsException_init r)).

(** [remove_user_from_team]: a failed team DELETE is passed over when its
    message is the expected one and stops the call otherwise; a failed
    organization DELETE raises the generic error; [True] is returned
    exactly when both requests were made and the second succeeded. *)
Definition remove_user_contract (success : Response -> bool)
           (srv : Server) (user team : string) (st : State) : Prop :=
  let rq1 := team_delete_request st user team in
  let r1 := srv (sent st) rq1 in
  let rq2 := org_delete_request st user in
  let r2 := srv (sent st ++ [rq1]) rq2 in
  let res := (remove_user_from_team srv user team st).1 in
  let st' := (remove_user_from_team srv user team st).2 in
  (success r1 = true → sent st' = sent st ++ [rq1; rq2]) ∧
  (success r1 = false →
   message_is r1 (not_in_team_message user team) = true →
   sent st' = sent st ++ [rq1; rq2]) ∧
  (success r1 = false →
   message_is r1 (not_in_team_message user team) = false →
   sent st' = sent st ++ [rq1] ∧ ∃ e, res = Raise e) ∧
  (sent st' = sent st ++ [rq1; rq2] → success r2 = false →
   res = Raise (RequestsException_init r2)) ∧
  (res = Ok true ↔ sent st' = sent st ++ [rq1; rq2] ∧ success r2 = true) ∧
  (∀ b, res = Ok b → b = true).

(** The [role] field of a response body, or [None]. *)
Definition role_field (r : Response) : value :=
  match body r with
  | Some (VDict d) => default VNone (assoc "role" d)
  | _ => VNone
  end.

(** [get_repo_team_permissions] as described: the role field on success;
    [None] on the failure whose message is the expected one; the generic
    error on every other failure. *)
Definition permission_claim (srv : Server) (repo_name team : string)
           (st : State) : Prop :=
  let r := srv (sent st) (permission_request st repo_name team) in
  let res := (get_repo_team_permissions srv repo_name team st).1 in
  if is_2xx r then res = Ok (role_field r)
  else if message_is r no_permission_message then res = Ok VNone
  else res = Raise (RequestsException_init r).

(** Once a call has fetched the members of a team, a second call with the
    cache flag returns the same list object and changes nothing (so sends
    nothing). *)
Definition second_call_cached (srv : Server) (team : string) (cache : bool)
           (st : State) : Prop :=
  ∀ l st1, list_team_members srv team cache st = (Ok l, st1) →
           list_team_members srv team true st1 = (Ok l, st1).


(** A page of the repository listing: a successful response whose body is
    an object; its repositories and its next-page token. *)
Definition page_of (r : Response) : option (list value * value) :=
  if ok r then
    match body r with
    | Some (VDict d) =>
        match elements_of (default (VList []) (assoc "repositories" d)) with
        | Some more => Some (more, default VNone (assoc "next_page" d))
        | None => None
        end
    | _ => None
    end
  else None.

(** [linked_pages srv st h page n]: asked for the page with token [page]
    after the requests [h], the server serves [n] pages in a row, each
    carrying the token of the next. *)
Fixpoint linked_pages (srv : Server) (st : State) (h : list Request)
         (page : value) (n : nat) : bool :=
  match n with
  | O => true
  | S n' =>
      match page_of (srv h (images_request st page)) with
      | Some (_, next) =>
          truthy next
          && linked_pages srv st (h ++ [images_request st page]) next n'
      | None => false
      end
  end.

(** [page_chain srv st h page n]: the listing has exactly [n] pages, the
    last one without a token. *)
Fixpoint page_chain (srv : Server) (st : State) (h : list Request)
         (page : value) (n : nat) : bool :=
  match n with
  | O => false
  | S n' =>
      match page_of (srv h (images_request st page)) with
      | Some (_, next) =>
          match n' with
          | O => negb (truthy next)
          | S _ =>
              truthy next
              && page_chain srv st (h ++ [images_request st page]) next n'
          end
      | None => false
      end
  end.

(** What [raise("Too many page follows")] raises. *)
Definition limit_error : exn :=
  TypeError "exceptions must derive from BaseException".

Definition is_generic_error (e : exn) : bool :=
  match e with RequestsException _ => true | _ => false end.

(** The repositories of the [n] pages of a listing, in page order. *)
Fixpoint chain_repositories (srv : Server) (st : State) (h : list Request)
         (page : value) (n : nat) : list value :=
  match n with
  | O => []
  | S n' =>
      match page_of (srv h (images_request st page)) with
      | Some (more, next) =>
          more ++ chain_repositories srv st (h ++ [images_request st page])
                                     next n'
      | None => []
      end
  end.

(** The list object that holds the images once [more] has been added, and
    the list objects after that: without an accumulator a new object is
    created, with an accumulator that object is extended in place. *)
Definition accumulate (images : option loc) (more : list value)
           (h : list (list value)) : loc * list (list value) :=
  match images with
  | Some l => (l, <[l := default [] (h !! l) ++ more]> h)
  | None => (length h, h ++ [more])
  end.

(** A listing of [bound] pages or more makes [list_images] stop with the
    error of its depth guard, which is not the generic error, after the
    sixteen requests that the limit of fifteen follows allows. *)
Definition too_many_pages (bound : nat) (srv : Server) (st : State)
           (n : nat) : Prop :=
  (bound ≤ n)%nat →
  page_chain srv st (sent st) VNone n = true →
  let res := (list_images srv None VNone 0 st).1 in
  let st' := (list_images srv None VNone 0 st).2 in
  res = Raise limit_error ∧
  is_generic_error limit_error = false ∧
  length (sent st') = (length (sent st) + 16)%nat.

(** A listing of at most sixteen pages is followed to its end: one
    request per page, and the list returned is a new list object that
    holds the repositories of all the pages in page order. *)
Definition chain_returned (srv : Server) (st : State) (n : nat) : Prop :=
  (n ≤ 16)%nat →
  page_chain srv st (sent st) VNone n = true →
  let res := (list_images srv None VNone 0 st).1 in
  let st' := (list_images srv None VNone 0 st).2 in
  res = Ok (length (heap st)) ∧
  self st' = self st ∧
  heap st' = heap st ++ [chain_repositories srv st (sent st) VNone n] ∧
  length (sent st') = (length (sent st) + n)%nat.

End QuaySpec.

(** ** Further statements about [amtool.py] *)

Module AmtoolExtra.
Import Amtool.

(** The step that fails before the validator can be run, if any: the
    creation of the temporary file, the write or the flush. *)
Definition setup_error (env : Env) (yaml_str : string) (w : World)
  : option exn :=
  match mkstemp env (files w) with
  | inl e => Some e
  | inr n =>
      match files w !! n with
      | Some _ => Some (OSError "File exists")
      | None =>
          match write_error env n yaml_str with
          | Some e => Some e
          | None => flush_error env n yaml_str
          end
      end
  end.

(** No temporary file can be created. *)
Definition env_no_tempfile : Env :=
  mkEnv (fun _ => inl (OSError "No space left on device"))
        (fun _ _ => None) (fun _ _ => None)
        (fun _ _ => Exited 0 [] []) AmtoolScenario.show.

(** The flush of the temporary file fails. *)
Definition env_flush_fails : Env :=
  mkEnv (fun _ => inr "/tmp/tmp0")
        (fun _ _ => None) (fun _ _ => Some (OSError "Input/output error"))
        (fun _ _ => Exited 0 [] []) AmtoolScenario.show.

(** A validator that accepts exactly the files whose text is [ok]. *)
Definition env_reads_file : Env :=
  AmtoolScenario.quiet_io (fun cmd fs =>
    match cmd with
    | [_; _; path] =>
        match fs !! path with
        | Some "ok" => Exited 0 (list_byte_of_string "SUCCESS") []
        | _ => Exited 1 [] (list_byte_of_string "FAILED")
        end
    | _ => NotStarted (OSError "usage")
    end).

(** The string contains a line feed. *)
Fixpoint has_newline (s : string) : bool :=
  match s with
  | EmptyString => false
  | String a rest => Ascii.eqb a (ascii_of_nat 10) || has_newline rest
  end.

End AmtoolExtra.

(** ** Further statements about [quay_api.py] *)

Module QuayExtra.
Import Quay QuaySpec.

(** The name of a member object of a team listing, when it is a string. *)
Definition member_name (m : value) : option string :=
  match m with
  | VDict d => match assoc "name" d with
               | Some (VStr n) => Some n
               | _ => None
               end
  | _ => None
  end.

(** The response is a successful team listing whose member objects carry
    the names [names], in this order and with their repetitions. *)
Definition lists_members (r : Response) (names : list string) : Prop :=
  status_code r ≠ 404 ∧ ok r = true ∧
  ∃ d items, body r = Some (VDict d) ∧
             assoc "members" d = Some (VList items) ∧
             Forall2 (fun m n => member_name m = Some n) items names.

(** [serves srv st h page ps]: asked for the page with token [page] after
    the requests [h], the server serves the pages [ps] (the repositories
    and the token of each), every page but the last with a token. *)
Fixpoint serves (srv : Server) (st : State) (h : list Request)
         (page : value) (ps : list (list value * value)) : Prop :=
  match ps with
  | [] => False
  | p :: ps' =>
      page_of (srv h (images_request st page)) = Some p ∧
      match ps' with
      | [] => truthy p.2 = false
      | _ :: _ =>
          truthy p.2 = true ∧
          serves srv st (h ++ [images_request st page]) p.2 ps'
      end
  end.

(** The tokens of the requests that fetch the pages [ps], starting with
    the token [page]: each request carries the token of the page before. *)
Definition tokens_requested (page : value) (ps : list (list value * value))
  : list value :=
  take (length ps) (page :: (snd <$> ps)).

(** A member object as the registry lists it. *)
Definition member (n : string) : value :=
  VDict [("name", VStr n); ("kind", VStr "user"); ("is_robot", VBool false)].

Definition listing (names : list string) : Response :=
  mkResponse 200 "" (Some (VDict [("name", VStr "blue");
                                  ("members", VList (member <$> names))])).

(** A server that lists [names] for every team and accepts everything
    else. *)
Definition team_server (names : list string) : Server :=
  fun _ rq => match meth rq with
              | GET => listing names
              | _ => QuayScenario.empty_status 204
              end.

(** The [k]-th answer is the [k]-th of [pages], with a token on every page
    but the last. *)
Definition page_response (pages : list (list value)) (k : nat) : Response :=
  mkResponse 200 ""
    (Some (VDict ([("repositories", VList (default [] (pages !! k)))]
                  ++ (if (S k <? length pages)%nat
                      then [("next_page", VStr ("token" +:+ pretty (S k)))]
                      else [])))).

Definition pages_server (pages : list (list value)) : Server :=
  fun h _ => page_response pages (length h).

Definition repo (n : string) : value :=
  VDict [("namespace", VStr "acme"); ("name", VStr n)].

Definition three_pages : list (list value) :=
  [[repo "a"; repo "b"]; [repo "c"; repo "d"]; [repo "e"]].

(** A server whose every answer is a page that points to a next page. *)
Definition looping : Server :=
  fun _ _ => mkResponse 200 ""
               (Some (VDict [("repositories", VList [repo "a"]);
                             ("next_page", VStr "again")])).

(** Every answer of the server is a page with a next-page token. *)
Definition always_more (srv : Server) : Prop :=
  ∀ h rq, ∃ more next,
    page_of (srv h rq) = Some (more, next) ∧ truthy next = true.

(** The errors [list_images] can end with. *)
Definition list_images_error (e : exn) : Prop :=
  e = limit_error ∨
  (∃ r, ok r = false ∧ e = RequestsException_init r) ∨
  e = JSONDecodeError ∨
  e = AttributeError "object has no attribute 'get'" ∨
  e = TypeError "object is not iterable".

(** What a method that only checks the status of its one request does
    with the answer [r]. *)
Definition status_only (r : Response) : outcome unit :=
  if ok r then Ok tt else Raise (RequestsException_init r).

(** The calls a user of [QuayApi] can make. *)
Inductive call :=
| ListTeamMembers (team : string) (cache : bool)
| UserExists (user : string)
| RemoveUserFromTeam (user team : string)
| AddUserToTeam (user team : string)
| ListImages (images : option loc) (page : value) (count : Z)
| RepoCreate (repo_name description : string) (public : bool)
| RepoDelete (repo_name : string)
| RepoUpdateDescription (repo_name description : string)
| RepoMakePublic (repo_name : string)
| RepoMakePrivate (repo_name : string)
| GetRepoTeamPermissions (repo_name team : string)
| SetRepoTeamPermissions (repo_name team role : string).

(** The client after a call, whether it returned or raised. *)
Definition state_after (srv : Server) (c : call) (st : State) : State :=
  match c with
  | ListTeamMembers team cache => (list_team_members srv team cache st).2
  | UserExists user => (user_exists srv user st).2
  | RemoveUserFromTeam user team => (remove_user_from_team srv user team st).2
  | AddUserToTeam user team => (add_user_to_team srv user team st).2
  | ListImages images page count => (list_images srv images page count st).2
  | RepoCreate n d p => (repo_create srv n d p st).2
  | RepoDelete n => (repo_delete srv n st).2
  | RepoUpdateDescription n d => (repo_update_description srv n d st).2
  | RepoMakePublic n => (repo_make_public srv n st).2
  | RepoMakePrivate n => (repo_make_private srv n st).2
  | GetRepoTeamPermissions n t => (get_repo_team_permissions srv n t st).2
  | SetRepoTeamPermissions n t r => (set_repo_team_permissions srv n t r st).2
  end.

(** The client after a sequence of calls made one after the other, each
    call made whether or not the one before raised. *)
Fixpoint state_after_all (srv : Server) (cs : list call) (st : State)
  : State :=
  match cs with
  | [] => st
  | c :: cs' => state_after_all srv cs' (state_after srv c st)
  end.

(** The calls that read or fill the member cache. *)
Definition uses_cache (c : call) : bool :=
  match c with
  | ListTeamMembers _ _ | AddUserToTeam _ _ => true
  | _ => false
  end.

(** The list object a call is given to extend, if any. *)
Definition accumulator_of (c : call) : option loc :=
  match c with
  | ListImages images _ _ => images
  | _ => None
  end.

(** From the list objects [h] to the list objects [h']: the object named
    by [images], if any, has been extended at its end, and every other
    object of [h] has kept its members.  ([h'] may hold new objects.) *)
Definition extends_only (images : option loc) (h h' : list (list value))
  : Prop :=
  ∀ l ms, h !! l = Some ms →
          if decide (images = Some l)
          then ∃ more, h' !! l = Some (ms ++ more)
          else h' !! l = Some ms.

(** The parts of the client that say who it is and where it talks to. *)
Definition same_identity (a b : QuayApi) : Prop :=
  token a = token b ∧ organization a = organization b ∧
  auth_header a = auth_header b ∧ API_URL a = API_URL b.

(** The requests sent between two states all satisfy [P]. *)
Definition sent_only (P : Request -> Prop) (st st' : State) : Prop :=
  ∃ rqs, sent st' = sent st ++ rqs ∧ Forall P rqs.

(** What [add_user_to_team] returns once its PUT has been answered with
    [r]. *)
Definition put_outcome (r : Response) : outcome bool :=
  if ok r then Ok true else Raise (RequestsException_init r).

End QuayExtra.

(** ** Properties of [check_config] *)

Import Amtool AmtoolSpec.

Ltac unfold_monad :=
  unfold mbind, M_bind, bind, mret, M_ret, ret, raise, modify, get,
    try, reraise, lift_option in *.

(** The [try] block of [_run_yaml_str_cmd] in closed form: which step
    stops it, and the world it leaves. *)
Lemma try_block_closed_form env cmd yaml_str w :
  with_file (NamedTemporaryFile env) (fun fp =>
      fp ← fp_write env fp yaml_str;
      fp ← fp_flush env fp;
      run env (cmd ++ [name fp]) true) w
  = match mkstemp env (files w) with
    | inl e => (Raise e, w)
    | inr n =>
        match files w !! n with
        | Some _ => (Raise (OSError "File exists"), w)
        | None =>
            let w1 := mkWorld (files w) (created w ++ [n]) (spawned w) in
            match write_error env n yaml_str with
            | Some e => (Raise e, w1)
            | None =>
                match flush_error env n yaml_str with
                | Some e => (Raise e, w1)
                | None =>
                    let argv := cmd ++ [n] in
                    let o := exec env argv (<[n := yaml_str]> (files w)) in
                    let w2 := mkWorld (files w) (created w ++ [n])
                                      (spawned w ++ [(argv, o)]) in
                    match o with
                    | NotStarted e => (Raise e, w2)
                    | Exited rc out err =>
                        if rc =? 0
                        then (Ok (mkCompletedProcess argv rc out err), w2)
                        else (Raise (CalledProcessError rc argv out err), w2)
                    end
                end
            end
        end
    end.
Proof.
  unfold with_file, NamedTemporaryFile, fp_write, fp_flush, fp_close, run.
  unfold_monad. simpl.
  destruct (mkstemp env (files w)) as [e|n]; simpl; [done|].
  destruct (files w !! n) eqn:Hn; simpl; [done|].
  assert (Hdel : ∀ x y : string, delete n (<[n:=x]> (<[n:=y]> (files w))) = files w).
  { intros. rewrite !delete_insert_eq. by apply delete_id. }
  assert (Hdel1 : ∀ x : string, delete n (<[n:=x]> (files w)) = files w).
  { intros. rewrite !delete_insert_eq. by apply delete_id. }
  change ("" +:+ yaml_str) with yaml_str.
  destruct (write_error env n yaml_str); simpl; [by rewrite Hdel1|].
  destruct (flush_error env n yaml_str); simpl; [by rewrite Hdel1|].
  rewrite lookup_insert_eq, insert_insert_eq.
  change ("" +:+ yaml_str) with yaml_str.
  destruct (exec env _ _) as [rc out err|e]; simpl.
  - destruct (rc =? 0); simpl; by rewrite Hdel1.
  - by rewrite Hdel1.
Qed.

(** [_run_yaml_str_cmd] around its [try] block: an exception of the
    block becomes a failed result, and the output of a completed run is
    decoded after the block. *)
Lemma run_yaml_str_cmd_unfold env cmd yaml_str w :
  _run_yaml_str_cmd env cmd yaml_str w
  = let '(r, w') :=
      with_file (NamedTemporaryFile env) (fun fp =>
        fp ← fp_write env fp yaml_str;
        fp ← fp_flush env fp;
        run env (cmd ++ [name fp]) true) w in
    match r with
    | Raise e => (Ok (mkAmtoolResult false (error_message env e)), w')
    | Ok result =>
        if utf8_valid (stdout result)
        then (Ok (mkAmtoolResult true (string_of_list_byte (stdout result))),
              w')
        else (Raise (UnicodeDecodeError (stdout result)), w')
    end.
Proof.
  unfold _run_yaml_str_cmd, decode, error_message. unfold_monad.
  destruct (with_file _ _ w) as [[result|e] w']; [|done].
  by destruct (utf8_valid (stdout result)).
Qed.

Lemma drop_length_app {A} (l k : list A) : drop (length l) (l ++ k) = k.
Proof. by rewrite drop_app_length. Qed.

Lemma drop_length_self {A} (l : list A) : drop (length l) l = [].
Proof. by rewrite drop_all. Qed.

(** C9. On every exit path of [check_config] (a result that succeeded, a
    result that failed, an error raised) the temporary file it created has
    been deleted when it returns: the file table is the one it started
    from, and none of the temporary files created during the call is in
    it; a temporary file is created whenever the system hands out a free
    name. *)
Theorem check_config_deletes_tempfile (env : Env) (yaml_str : string)
        (w : World) :
  let w' := (check_config env yaml_str w).2 in
  files w' = files w ∧
  Forall (fun n => files w' !! n = None) (new_tempfiles w w') ∧
  match mkstemp env (files w) with
  | inr n => match files w !! n with
             | None => new_tempfiles w w' = [n]
             | Some _ => new_tempfiles w w' = []
             end
  | inl _ => new_tempfiles w w' = []
  end.
Proof.
  unfold check_config, new_tempfiles. cbv zeta.
  rewrite run_yaml_str_cmd_unfold, try_block_closed_form.
  destruct (mkstemp env (files w)) as [e|n]; simpl.
  { rewrite drop_length_self. by repeat split. }
  destruct (files w !! n) eqn:Hn; simpl.
  { rewrite drop_length_self. by repeat split. }
  destruct (write_error env n yaml_str); simpl.
  { rewrite drop_length_app. repeat split; auto. }
  destruct (flush_error env n yaml_str); simpl.
  { rewrite drop_length_app. repeat split; auto. }
  destruct (exec env _ _) as [rc out err|e]; simpl.
  - destruct (rc =? 0); simpl.
    + destruct (utf8_valid out); simpl;
        rewrite drop_length_app; repeat split; auto.
    + rewrite drop_length_app. repeat split; auto.
  - rewrite drop_length_app. repeat split; auto.
Qed.

Example check_config_not_utf8 :
  (check_config AmtoolScenario.env_not_utf8 "route: {}" AmtoolScenario.empty_world).1
  = Raise (UnicodeDecodeError [xff]).
Proof. reflexivity. Qed.

(** C1, as stated, fails: the validator exits with status 0 after printing
    the byte [0xff]; the output is decoded outside the [try] block, the
    decoding error is not caught, and no result is returned. *)
Lemma check_config_contract_counterexample :
  ¬ check_config_contract AmtoolScenario.env_not_utf8 "route: {}"
      AmtoolScenario.empty_world.
Proof.
  intros (res & w' & Hrun & _).
  apply (f_equal fst) in Hrun. rewrite check_config_not_utf8 in Hrun.
  discriminate Hrun.
Qed.

(** C1, amended.  Provided that what the validator prints when it exits
    with status 0 is valid UTF-8: for every input text [check_config]
    returns a result; the result succeeded if and only if the validator
    was run and exited with status 0; on exit 0 its output is the captured
    stdout; on a non-zero exit, and when the validator or the temporary
    file could not be set up, it failed and its output is
    ["Error running amtool: "] followed by that cause.  The validator is
    the program the environment runs on the file that holds the text. *)
Theorem check_config_contract_utf8 (env : Env) (yaml_str : string)
        (w : World) :
  utf8_on_success env → check_config_contract env yaml_str w.
Proof.
  intros Hutf.
  unfold check_config_contract, check_config, validator_call, runs.
  rewrite run_yaml_str_cmd_unfold, try_block_closed_form.
  destruct (mkstemp env (files w)) as [e|n]; simpl.
  { eexists _, _. split; [done|]. cbn [spawned]; rewrite drop_length_self.
    split; [|done]. split; [done|]. by intros (? & ? & ? & ?). }
  destruct (files w !! n) eqn:Hn; simpl.
  { eexists _, _. split; [done|]. cbn [spawned]; rewrite drop_length_self.
    split; [|done]. split; [done|]. by intros (? & ? & ? & ?). }
  destruct (write_error env n yaml_str); simpl.
  { eexists _, _. split; [done|]. cbn [spawned]; rewrite drop_length_self.
    split; [|done]. split; [done|]. by intros (? & ? & ? & ?). }
  destruct (flush_error env n yaml_str); simpl.
  { eexists _, _. split; [done|]. cbn [spawned]; rewrite drop_length_self.
    split; [|done]. split; [done|]. by intros (? & ? & ? & ?). }
  destruct (exec env _ _) as [rc out err|e] eqn:Hexec; simpl.
  - destruct (rc =? 0) eqn:Hrc; simpl.
    + apply Z.eqb_eq in Hrc as ->.
      rewrite (Hutf _ _ _ _ Hexec).
      eexists _, _. split; [done|]. cbn [spawned]; rewrite drop_length_app.
      simpl. split; [|done]. split; [by eauto|done].
    + eexists _, _. split; [done|]. cbn [spawned]; rewrite drop_length_app.
      simpl. split; [|done].
      apply Z.eqb_neq in Hrc. split; [done|].
      intros (? & ? & ? & [= _ -> _ _]). done.
  - eexists _, _. split; [done|]. cbn [spawned]; rewrite drop_length_app.
    simpl. split; [|done]. split; [done|]. by intros (? & ? & ? & ?).
Qed.

Lemma check_config_contract_utf8_witness :
  utf8_on_success AmtoolScenario.env_success ∧
  check_config_contract AmtoolScenario.env_success "route: {}"
    AmtoolScenario.empty_world ∧
  (check_config AmtoolScenario.env_success "route: {}"
                AmtoolScenario.empty_world).1
  = Ok (mkAmtoolResult true "SUCCESS").
Proof.
  assert (H : utf8_on_success AmtoolScenario.env_success).
  { intros cmd fs out err Hexec. simpl in Hexec.
    injection Hexec as <- _. reflexivity. }
  split; [exact H|]. split; [|reflexivity].
  exact (check_config_contract_utf8 AmtoolScenario.env_success "route: {}"
           AmtoolScenario.empty_world H).
Defined.

(** ** Properties of the registry client *)

Import Quay QuaySpec.

Lemma ok_false_iff (r : Response) :
  ok r = false ↔ 400 ≤ status_code r < 600.
Proof. unfold ok. destruct (400 <=? _) eqn:?, (_ <? 600) eqn:?; simpl; lia. Qed.

Lemma is_2xx_ok (r : Response) : is_2xx r = true → ok r = true.
Proof. unfold is_2xx, ok. lia. Qed.

Example user_exists_not_modified :
  (user_exists (QuayScenario.always (QuayScenario.empty_status 304))
               "bob" QuayScenario.st0).1 = Ok true.
Proof. reflexivity. Qed.

(** C3, as stated, fails: status 304 is not a 2xx status, and
    [user_exists] returns [True] on it, since [r.ok] only rejects the
    statuses 400 to 599. *)
Lemma user_exists_contract_counterexample :
  ¬ user_exists_contract is_2xx
      (QuayScenario.always (QuayScenario.empty_status 304))
      "bob" QuayScenario.st0.
Proof.
  intros (b & st' & Hrun & _ & Hfalse).
  apply (f_equal fst) in Hrun. rewrite user_exists_not_modified in Hrun.
  injection Hrun as <-. specialize (Hfalse eq_refl). discriminate Hfalse.
Qed.

(** C3, amended.  For every status the server returns, [user_exists]
    raises nothing and returns [r.ok]: [False] exactly for the statuses
    400 to 599 (404 and 500 among them) and [True] for every other
    status. *)
Theorem user_exists_probe (srv : Server) (user : string) (st : State) :
  let r := srv (sent st) (user_request st user) in
  (user_exists srv user st).1 = Ok (ok r) ∧
  user_exists_contract ok srv user st ∧
  (ok r = false ↔ 400 ≤ status_code r < 600).
Proof.
  assert (Hrun : user_exists srv user st
                 = (Ok (ok (srv (sent st) (user_request st user))),
                    mkState (self st) (heap st)
                            (sent st ++ [user_request st user]))).
  { unfold user_exists, send. unfold_monad.
    by destruct (ok (srv (sent st) (user_request st user))). }
  cbv zeta. split; [by rewrite Hrun|]. split; [|apply ok_false_iff].
  eexists _, _. split; [exact Hrun|]. split; [done|]. done.
Qed.

Lemma collect_names_pure items acc (st : State) :
  (collect_names items acc st).2 = st ∧
  match (collect_names items acc st).1 with
  | Raise e => is_parse_error e = true
  | Ok _ => True
  end.
Proof.
  revert acc. induction items as [|member rest IH]; intros acc; simpl.
  { done. }
  unfold_monad. unfold getitem, set_add. unfold_monad.
  destruct member as [| | | |l|d]; simpl; try done.
  destruct (assoc "name" d) as [n|]; simpl; [|done].
  destruct (hashable n); simpl; [|done].
  apply IH.
Qed.

Lemma member_names_pure r (st : State) :
  (member_names r st).2 = st ∧
  match (member_names r st).1 with
  | Raise e => is_parse_error e = true
  | Ok _ => True
  end.
Proof.
  unfold member_names, response_json, getitem, py_iter. unfold_monad.
  destruct (body r) as [b|]; simpl; [|done].
  destruct b as [| | | |l|d]; simpl; try done.
  destruct (assoc "members" d) as [items|]; simpl; [|done].
  destruct (elements_of items) as [l|]; simpl; [|done].
  apply collect_names_pure.
Qed.

(** [list_team_members] on the path that asks the server, in closed
    form. *)
Lemma list_team_members_fetch (srv : Server) (team : string) (cache : bool)
      (st : State) :
  (if cache then cache_lookup st team else None) = None →
  list_team_members srv team cache st
  = let rq := team_members_request st team in
    let r := srv (sent st) rq in
    if status_code r =? 404
    then (Raise (team_not_found st team), after_send st rq)
    else if ok r then
      match (member_names r (after_send st rq)).1 with
      | Ok members => (Ok (length (heap st)), after_fetch st team members)
      | Raise e => (Raise e, after_send st rq)
      end
    else (Raise (RequestsException_init r), after_send st rq).
Proof.
  intros Hmiss. unfold list_team_members.
  unfold mbind at 1. unfold M_bind, bind at 1, get. rewrite Hmiss.
  unfold mbind at 1. unfold M_bind, bind at 1, send at 1.
  fold (after_send st (team_members_request st team)).
  cbv zeta.
  destruct (status_code _ =? 404); [done|].
  destruct (ok _); simpl; [|done].
  pose proof (member_names_pure
                (srv (sent st) (team_members_request st team))
                (after_send st (team_members_request st team))) as [Hst _].
  unfold member_names in *. unfold alloc, set_team_members. unfold_monad.
  destruct (response_json _ _) as [[b|e] s1]; simpl in *; [|by subst].
  destruct (getitem b "members" s1) as [[items|e] s2]; simpl in *;
    [|by subst].
  destruct (py_iter items s2) as [[l|e] s3]; simpl in *; [|by subst].
  destruct (collect_names l [] s3) as [[members|e] s4]; simpl in *;
    [|by subst].
  by subst.
Qed.

(** [list_team_members] on the path that answers from the cache. *)
Lemma list_team_members_hit srv team st l :
  cache_lookup st team = Some l →
  list_team_members srv team true st = (Ok l, st).
Proof.
  intros Hhit. unfold list_team_members. unfold_monad. by rewrite Hhit.
Qed.

Example list_team_members_not_modified :
  (list_team_members (QuayScenario.always (QuayScenario.empty_status 304))
                     "blue" false QuayScenario.st0).1
  = Raise JSONDecodeError.
Proof. reflexivity. Qed.

(** C5, as stated, fails: status 304 is neither 404 nor a 2xx status, and
    [list_team_members] does not raise the generic error on it; it goes on
    to read the body. *)
Lemma team_lookup_contract_counterexample :
  ¬ team_lookup_contract is_2xx
      (QuayScenario.always (QuayScenario.empty_status 304))
      "blue" false QuayScenario.st0.
Proof.
  intros [_ Hgeneric]. cbv zeta in Hgeneric.
  rewrite list_team_members_not_modified in Hgeneric.
  discriminate Hgeneric; [reflexivity | discriminate].
Qed.

(** C5, amended.  Whenever [list_team_members] asks the server (the cache
    flag is off, or the cache has no non-empty list for the team): it
    raises the team-not-found error, whose text names the team and the
    organization, exactly when the status is 404, and it raises the
    generic [RequestsException], whose text carries the status code and
    the body, for every other status from 400 to 599. *)
Theorem list_team_members_errors (srv : Server) (team : string)
        (cache : bool) (st : State) :
  (if cache then cache_lookup st team else None) = None →
  let r := srv (sent st) (team_members_request st team) in
  team_lookup_contract ok srv team cache st ∧
  team_not_found st team
  = ValueError ("team " +:+ team +:+ " is not found in org "
                +:+ organization (self st)
                +:+ ". contact org owner to create the team manually.") ∧
  RequestsException_init r
  = RequestsException (newline +:+ "Code: " +:+ pretty (status_code r)
                       +:+ newline +:+ text r).
Proof.
  intros Hmiss r. split; [|done].
  unfold team_lookup_contract. fold r.
  rewrite (list_team_members_fetch _ _ _ _ Hmiss). cbv zeta. fold r.
  destruct (status_code r =? 404) eqn:H404.
  { apply Z.eqb_eq in H404. simpl. split; [done|]. intros _ Hne. done. }
  apply Z.eqb_neq in H404.
  destruct (ok r) eqn:Hok.
  - pose proof (member_names_pure r
                  (after_send st (team_members_request st team))) as [_ He].
    destruct (member_names r _).1 as [members|e]; simpl.
    + split; [|done]. split; [done|]. intros ?. done.
    + split; [|done]. split; [|done].
      intros [= ->]. discriminate He.
  - simpl. split; [|done]. split; [done|]. intros ?. done.
Qed.

Lemma list_team_members_errors_witness :
  (if false then cache_lookup QuayScenario.st0 "blue" else None) = None ∧
  team_lookup_contract ok
    (QuayScenario.always (QuayScenario.empty_status 404))
    "blue" false QuayScenario.st0.
Proof.
  split; [reflexivity|].
  exact (proj1 (list_team_members_errors
                  (QuayScenario.always (QuayScenario.empty_status 404))
                  "blue" false QuayScenario.st0 eq_refl)).
Defined.

Lemma cache_lookup_empty (st : State) (team : string) (l : loc) :
  team_members (self st) !! team = Some l →
  heap st !! l = Some [] →
  cache_lookup st team = None.
Proof.
  intros Hteam Hl. unfold cache_lookup, deref. by rewrite Hteam, Hl.
Qed.

(** C10.  When the list cached for a team is empty, a call of
    [list_team_members] with the cache flag does not answer from the
    cache: it behaves as the call without the flag, sends the request for
    the members of the team, and what it returns is not the cached list
    object. *)
Theorem empty_cached_list_is_bypassed (srv : Server) (team : string)
        (st : State) (l : loc) :
  team_members (self st) !! team = Some l →
  heap st !! l = Some [] →
  let call := list_team_members srv team true st in
  call = list_team_members srv team false st ∧
  sent call.2 = sent st ++ [team_members_request st team] ∧
  call.1 ≠ Ok l.
Proof.
  intros Hteam Hl call. subst call.
  pose proof (cache_lookup_empty st team l Hteam Hl) as Hmiss.
  rewrite (list_team_members_fetch srv team true st Hmiss).
  rewrite (list_team_members_fetch srv team false st eq_refl).
  split; [done|]. cbv zeta.
  destruct (status_code _ =? 404); [done|].
  destruct (ok _); [|done].
  destruct (member_names _ _).1 as [members|e]; simpl; [|done].
  split; [done|]. intros [= <-].
  apply lookup_lt_Some in Hl. lia.
Qed.


Lemma empty_cached_list_is_bypassed_witness :
  team_members (self (QuayScenario.fetched [])) !! "blue" = Some 0%nat ∧
  heap (QuayScenario.fetched []) !! 0%nat = Some [] ∧
  let call := list_team_members
                (QuayScenario.always (QuayScenario.members_response []))
                "blue" true (QuayScenario.fetched []) in
  call = list_team_members
           (QuayScenario.always (QuayScenario.members_response []))
           "blue" false (QuayScenario.fetched []) ∧
  sent call.2 = sent (QuayScenario.fetched [])
                ++ [team_members_request (QuayScenario.fetched []) "blue"] ∧
  call.1 ≠ Ok 0%nat.
Proof.
  assert (H1 : team_members (self (QuayScenario.fetched [])) !! "blue"
               = Some 0%nat) by (vm_compute; reflexivity).
  assert (H2 : heap (QuayScenario.fetched []) !! 0%nat = Some [])
    by reflexivity.
  split; [exact H1|]. split; [exact H2|].
  exact (empty_cached_list_is_bypassed
           (QuayScenario.always (QuayScenario.members_response []))
           "blue" (QuayScenario.fetched []) 0%nat H1 H2).
Defined.

Example second_call_refetches_empty :
  let srv := QuayScenario.always (QuayScenario.members_response []) in
  (list_team_members srv "blue" false QuayScenario.st0).1 = Ok 0%nat ∧
  (list_team_members srv "blue" true (QuayScenario.fetched [])).1
  = Ok 1%nat ∧
  length (sent (list_team_members srv "blue" true
                                  (QuayScenario.fetched [])).2) = 2%nat.
Proof. repeat split; vm_compute; reflexivity. Qed.

(** C4, as stated, fails: a team without members is fetched once, the
    empty list is cached, and the second call with the cache flag sends a
    second request and returns a new list object. *)
Lemma second_call_cached_counterexample :
  ¬ second_call_cached
      (QuayScenario.always (QuayScenario.members_response []))
      "blue" false QuayScenario.st0.
Proof.
  intros Hclaim.
  specialize (Hclaim 0%nat (QuayScenario.fetched [])).
  assert (Hfirst : list_team_members
                     (QuayScenario.always (QuayScenario.members_response []))
                     "blue" false QuayScenario.st0
                   = (Ok 0%nat, QuayScenario.fetched [])).
  { unfold QuayScenario.fetched.
    destruct (list_team_members _ _ _ _) as [res st1] eqn:Hrun.
    pose proof second_call_refetches_empty as [Hres _]. cbv zeta in Hres.
    rewrite Hrun in Hres. simpl in Hres. by rewrite Hres. }
  apply Hclaim in Hfirst. apply (f_equal fst) in Hfirst.
  pose proof second_call_refetches_empty as (_ & Hsecond & _).
  cbv zeta in Hsecond. rewrite Hsecond in Hfirst. discriminate Hfirst.
Qed.

Lemma cache_lookup_after_fetch (st : State) (team : string)
      (members : list value) :
  members ≠ [] →
  cache_lookup (after_fetch st team members) team
  = Some (length (heap st)).
Proof.
  intros Hne. unfold cache_lookup, after_fetch, deref. simpl.
  rewrite lookup_insert_eq.
  rewrite list_lookup_middle by done. simpl.
  by destruct members.
Qed.

Lemma deref_after_fetch (st : State) (team : string) (members : list value) :
  deref (after_fetch st team members) (length (heap st)) = members.
Proof.
  unfold deref, after_fetch. simpl. by rewrite list_lookup_middle.
Qed.

(** C4, amended.  Once a call of [list_team_members] has returned the
    members of a team, and that list is not empty, a second call with the
    cache flag returns the same list object and leaves the client as it
    was: nothing is sent. *)
Theorem list_team_members_cached (srv : Server) (team : string)
        (cache : bool) (st : State) (l : loc) (st1 : State) :
  list_team_members srv team cache st = (Ok l, st1) →
  deref st1 l ≠ [] →
  list_team_members srv team true st1 = (Ok l, st1).
Proof.
  intros Hfirst Hne.
  destruct (if cache then cache_lookup st team else None) as [l0|] eqn:Hc.
  - destruct cache; [|discriminate Hc].
    rewrite (list_team_members_hit _ _ _ _ Hc) in Hfirst.
    injection Hfirst as <- <-. by apply list_team_members_hit.
  - rewrite (list_team_members_fetch _ _ _ _ Hc) in Hfirst.
    cbv zeta in Hfirst.
    destruct (status_code _ =? 404); [discriminate Hfirst|].
    destruct (ok _); [|discriminate Hfirst].
    destruct (member_names _ _).1 as [members|e]; [|discriminate Hfirst].
    injection Hfirst as <- <-.
    rewrite deref_after_fetch in Hne.
    apply list_team_members_hit. by apply cache_lookup_after_fetch.
Qed.

Lemma list_team_members_cached_witness :
  let srv := QuayScenario.always
               (QuayScenario.members_response ["alice"; "bob"; "alice"]) in
  let st1 := QuayScenario.fetched ["alice"; "bob"; "alice"] in
  list_team_members srv "blue" false QuayScenario.st0 = (Ok 0%nat, st1) ∧
  deref st1 0%nat ≠ [] ∧
  list_team_members srv "blue" true st1 = (Ok 0%nat, st1).
Proof.
  assert (H1 : list_team_members
                 (QuayScenario.always
                    (QuayScenario.members_response ["alice"; "bob"; "alice"]))
                 "blue" false QuayScenario.st0
               = (Ok 0%nat, QuayScenario.fetched ["alice"; "bob"; "alice"]))
    by reflexivity.
  assert (H2 : deref (QuayScenario.fetched ["alice"; "bob"; "alice"]) 0%nat
               ≠ []) by discriminate.
  split; [exact H1|]. split; [exact H2|].
  exact (list_team_members_cached _ "blue" false QuayScenario.st0 0%nat _
           H1 H2).
Defined.

(** [remove_user_from_team] when the team DELETE succeeds or fails with
    the expected message: the organization DELETE decides. *)
Lemma remove_user_from_team_proceeds (srv : Server) (user team : string)
      (st : State) :
  let rq1 := team_delete_request st user team in
  let r1 := srv (sent st) rq1 in
  let rq2 := org_delete_request st user in
  let r2 := srv (sent st ++ [rq1]) rq2 in
  ok r1 || message_is r1 (not_in_team_message user team) = true →
  remove_user_from_team srv user team st
  = (if ok r2 then Ok true else Raise (RequestsException_init r2),
     after_send (after_send st rq1) rq2).
Proof.
  intros rq1 r1 rq2 r2 Hgo.
  unfold remove_user_from_team, send, response_json, getitem.
  unfold_monad. fold rq1. fold r1. simpl.
  destruct (ok r1) eqn:Hok1; simpl in *.
  - fold rq2. fold r2. by destruct (ok r2).
  - unfold message_is, failure_message in Hgo.
    destruct (body r1) as [[| | | |l|d]|]; try discriminate Hgo.
    simpl. destruct (assoc "message" d) as [m|]; [|discriminate Hgo].
    simpl. rewrite Hgo. simpl. fold rq2. fold r2. by destruct (ok r2).
Qed.

(** [remove_user_from_team] when the team DELETE fails otherwise: the call
    stops there. *)
Lemma remove_user_from_team_stops (srv : Server) (user team : string)
      (st : State) :
  let rq1 := team_delete_request st user team in
  let r1 := srv (sent st) rq1 in
  ok r1 || message_is r1 (not_in_team_message user team) = false →
  ∃ e, remove_user_from_team srv user team st
       = (Raise e, after_send st rq1).
Proof.
  intros rq1 r1 Hstop. apply orb_false_iff in Hstop as [Hok1 Hmsg].
  unfold remove_user_from_team, send, response_json, getitem.
  unfold_monad. fold rq1. fold r1. simpl. rewrite Hok1. simpl.
  unfold message_is, failure_message in Hmsg.
  destruct (body r1) as [[| | | |l|d]|]; simpl; eauto.
  destruct (assoc "message" d) as [m|]; simpl; eauto.
  rewrite Hmsg. simpl. eauto.
Qed.

Lemma snoc_ne_snoc2 {A} (l : list A) (a b c : A) :
  l ++ [a] ≠ l ++ [b; c].
Proof. intros H. apply app_inv_head in H. discriminate H. Qed.

Example remove_user_from_team_not_modified :
  (remove_user_from_team
     (QuayScenario.first_then (QuayScenario.empty_status 204)
                              (QuayScenario.empty_status 304))
     "bob" "blue" QuayScenario.st0).1 = Ok true.
Proof. reflexivity. Qed.

(** C6, as stated, fails: the team DELETE succeeds with 204 and the
    organization DELETE is answered with 304, which is not a 2xx status;
    nothing is raised and [True] is returned. *)
Lemma remove_user_contract_counterexample :
  ¬ remove_user_contract is_2xx
      (QuayScenario.first_then (QuayScenario.empty_status 204)
                               (QuayScenario.empty_status 304))
      "bob" "blue" QuayScenario.st0.
Proof.
  intros (_ & _ & _ & Horg & _). cbv zeta in Horg.
  rewrite remove_user_from_team_not_modified in Horg.
  discriminate Horg; reflexivity.
Qed.

(** C6, amended.  For every user and team: when the team DELETE is
    answered with a status from 400 to 599 and the message
    ["User {user} does not belong to team {team}"], [remove_user_from_team]
    goes on to the organization DELETE; with any other answer of that
    status range it raises after the first request, before the
    organization DELETE; an organization DELETE answered with a status
    from 400 to 599 raises the generic error; and [True] is returned
    exactly when both requests were made and the second was not answered
    with such a status. *)
Theorem remove_user_from_team_contract (srv : Server) (user team : string)
        (st : State) :
  remove_user_contract ok srv user team st.
Proof.
  unfold remove_user_contract. cbv zeta.
  set (rq1 := team_delete_request st user team).
  set (r1 := srv (sent st) rq1).
  set (rq2 := org_delete_request st user).
  set (r2 := srv (sent st ++ [rq1]) rq2).
  destruct (ok r1 || message_is r1 (not_in_team_message user team)) eqn:Hgo.
  - rewrite (remove_user_from_team_proceeds srv user team st Hgo).
    fold rq1 rq2 r2. simpl. rewrite <- app_assoc. simpl.
    apply orb_true_iff in Hgo.
    split; [done|]. split; [done|].
    split; [intros Hok1 Hmsg; destruct Hgo; congruence|].
    split; [by intros _ ->|].
    split; [|by intros b; destruct (ok r2); intros [= <-]].
    split; [by destruct (ok r2)|by intros [_ ->]].
  - destruct (remove_user_from_team_stops srv user team st Hgo) as [e ->].
    fold rq1. simpl. apply orb_false_iff in Hgo as [Hok1 Hmsg]. fold r1.
    split; [congruence|]. split; [congruence|].
    split; [by eauto|].
    split; [by intros Hsent%snoc_ne_snoc2|].
    split; [|done].
    split; [done|by intros [Hsent%snoc_ne_snoc2 _]].
Qed.

Example remove_user_from_team_other_message :
  let srv := QuayScenario.first_then
               (QuayScenario.message_response 400 "Invalid team")
               (QuayScenario.empty_status 204) in
  remove_user_from_team srv "bob" "blue" QuayScenario.st0
  = (Raise (RequestsException_init
              (QuayScenario.message_response 400 "Invalid team")),
     after_send QuayScenario.st0
                (team_delete_request QuayScenario.st0 "bob" "blue")).
Proof. reflexivity. Qed.

Lemma remove_user_from_team_contract_witness :
  let srv := QuayScenario.first_then
               (QuayScenario.message_response
                  400 "User bob does not belong to team blue")
               (QuayScenario.empty_status 204) in
  remove_user_contract ok srv "bob" "blue" QuayScenario.st0 ∧
  remove_user_from_team srv "bob" "blue" QuayScenario.st0
  = (Ok true,
     after_send
       (after_send QuayScenario.st0
                   (team_delete_request QuayScenario.st0 "bob" "blue"))
       (org_delete_request QuayScenario.st0 "bob")).
Proof.
  split; [|reflexivity].
  exact (remove_user_from_team_contract
           (QuayScenario.first_then
              (QuayScenario.message_response
                 400 "User bob does not belong to team blue")
              (QuayScenario.empty_status 204))
           "bob" "blue" QuayScenario.st0).
Defined.

Example get_repo_team_permissions_bad_gateway :
  (get_repo_team_permissions (QuayScenario.always QuayScenario.bad_gateway)
                             "app" "blue" QuayScenario.st0).1
  = Raise JSONDecodeError.
Proof. reflexivity. Qed.

Example get_repo_team_permissions_empty_role :
  (get_repo_team_permissions
     (QuayScenario.always
        (mkResponse 200 "" (Some (VDict [("role", VStr "")]))))
     "app" "blue" QuayScenario.st0).1
  = Ok VNone.
Proof. reflexivity. Qed.

(** C7, as stated, fails: a 502 answer whose body is not JSON is a failure
    without the expected message, and [get_repo_team_permissions] does not
    raise the generic error on it: reading the message raises first. *)
Lemma permission_claim_counterexample :
  ¬ permission_claim (QuayScenario.always QuayScenario.bad_gateway)
      "app" "blue" QuayScenario.st0.
Proof.
  unfold permission_claim. cbv zeta.
  rewrite get_repo_team_permissions_bad_gateway. simpl.
  discriminate.
Qed.

(** C7, amended.  For every repository and team, when the body of the
    response is a JSON object, with a [message] field if the status is
    from 400 to 599: on such a status [get_repo_team_permissions] returns
    [None] if the message is ["Team does not have permission for repo."]
    and raises the generic error otherwise; on every other status it
    returns the [role] field if it is present and truthy, else [None]. *)
Theorem get_repo_team_permissions_contract (srv : Server)
        (repo_name team : string) (st : State)
        (d : list (string * value)) :
  let r := srv (sent st) (permission_request st repo_name team) in
  body r = Some (VDict d) →
  (ok r = false → is_Some (assoc "message" d)) →
  (get_repo_team_permissions srv repo_name team st).1
  = if ok r
    then Ok (if truthy (role_field r) then role_field r else VNone)
    else if message_is r no_permission_message then Ok VNone
         else Raise (RequestsException_init r).
Proof.
  intros r Hbody Hmsg.
  unfold get_repo_team_permissions, send, response_json, getitem, dict_get.
  unfold_monad. fold r. simpl.
  unfold role_field, message_is, failure_message. rewrite Hbody. simpl.
  destruct (ok r); simpl.
  - by destruct (assoc "role" d) as [role|]; simpl.
  - destruct (Hmsg eq_refl) as [m ->]. simpl.
    by destruct (eq_str m no_permission_message).
Qed.

Lemma get_repo_team_permissions_contract_witness :
  let r := QuayScenario.message_response 400 no_permission_message in
  body r = Some (VDict [("message", VStr no_permission_message)]) ∧
  (ok r = false →
   is_Some (assoc "message" [("message", VStr no_permission_message)])) ∧
  (get_repo_team_permissions (QuayScenario.always r) "app" "blue"
                             QuayScenario.st0).1 = Ok VNone.
Proof.
  assert (H1 : body (QuayScenario.message_response 400 no_permission_message)
               = Some (VDict [("message", VStr no_permission_message)]))
    by reflexivity.
  assert (H2 : ok (QuayScenario.message_response 400 no_permission_message)
               = false →
               is_Some (assoc "message"
                          [("message", VStr no_permission_message)]))
    by (intros _; eexists; reflexivity).
  split; [exact H1|]. split; [exact H2|].
  exact (get_repo_team_permissions_contract
           (QuayScenario.always
              (QuayScenario.message_response 400 no_permission_message))
           "app" "blue" QuayScenario.st0 _ H1 H2).
Defined.








Lemma insert_at_end {A} (h : list A) (x y : A) :
  <[length h := y]> (h ++ [x]) = h ++ [y].
Proof.
  rewrite insert_app_r_alt by lia. by rewrite Nat.sub_diag.
Qed.

(** Adding [a] and then [b] to the accumulator adds [a ++ b]. *)
Lemma accumulate_again (images : option loc) (a b : list value)
      (h : list (list value)) :
  accumulate (Some (accumulate images a h).1) b (accumulate images a h).2
  = accumulate images (a ++ b) h.
Proof.
  destruct images as [l|]; simpl.
  - destruct (h !! l) as [x|] eqn:Hl; simpl.
    + rewrite list_lookup_insert_eq by exact (lookup_lt_Some _ _ _ Hl).
      simpl. by rewrite list_insert_insert_eq, app_assoc.
    + assert (Hge : ∀ x, <[l := x]> h = h).
      { intros x. apply list_insert_ge. by apply lookup_ge_None. }
      by rewrite !Hge.
  - rewrite list_lookup_middle by done. simpl.
    by rewrite insert_at_end.
Qed.

(** One call of [list_images] on a well-formed page: the page is added to
    the accumulator and the token, if any, is followed. *)
Lemma list_images_rec_step (fuel : nat) (srv : Server)
      (images : option loc) (page : value) (count : Z)
      (st : State) (more : list value) (next : value) :
  (count >? LIMIT_FOLLOWS) = false →
  page_of (srv (sent st) (images_request st page)) = Some (more, next) →
  list_images_rec (S fuel) srv images page count st
  = let acc := accumulate images more (heap st) in
    let st1 := mkState (self st) acc.2
                       (sent st ++ [images_request st page]) in
    if truthy next
    then list_images_rec fuel srv (Some acc.1) next (count + 1) st1
    else (Ok acc.1, st1).
Proof.
  intros Hcount Hpage. cbn [list_images_rec]. rewrite Hcount.
  unfold page_of in Hpage.
  unfold send, response_json, dict_get, py_iter, alloc, extend, deref.
  unfold_monad.
  destruct (ok _); [|discriminate Hpage]. simpl.
  destruct (body _) as [[| | | |l|d]|]; try discriminate Hpage. simpl.
  unfold default in Hpage.
  destruct (elements_of _) as [more'|]; [|discriminate Hpage].
  injection Hpage as -> <-.
  destruct images as [l|]; simpl.
  - by destruct (truthy _).
  - rewrite list_lookup_middle by done. simpl. rewrite insert_at_end.
    by destruct (truthy _).
Qed.

Lemma images_request_self (st st' : State) (page : value) :
  self st = self st' → images_request st page = images_request st' page.
Proof. intros H. unfold images_request. by rewrite H. Qed.

Lemma linked_pages_self (srv : Server) (st st' : State) :
  self st = self st' →
  ∀ n h page, linked_pages srv st h page n = linked_pages srv st' h page n.
Proof.
  intros Hself n. induction n as [|n IH]; intros h page; simpl; [done|].
  rewrite (images_request_self st st' page Hself).
  destruct (page_of _) as [[more next]|]; [|done].
  by rewrite IH.
Qed.

Lemma page_chain_self (srv : Server) (st st' : State) :
  self st = self st' →
  ∀ n h page, page_chain srv st h page n = page_chain srv st' h page n.
Proof.
  intros Hself n. induction n as [|n IH]; intros h page; simpl; [done|].
  rewrite (images_request_self st st' page Hself).
  destruct (page_of _) as [[more next]|]; [|done].
  destruct n; [done|]. by rewrite IH.
Qed.

Lemma chain_repositories_self (srv : Server) (st st' : State) :
  self st = self st' →
  ∀ n h page,
    chain_repositories srv st h page n = chain_repositories srv st' h page n.
Proof.
  intros Hself n. induction n as [|n IH]; intros h page; simpl; [done|].
  rewrite (images_request_self st st' page Hself).
  destruct (page_of _) as [[more next]|]; [|done].
  by rewrite IH.
Qed.

(** A listing of [n] pages has [k] linked pages for every [k < n]. *)
Lemma page_chain_linked (srv : Server) (st : State) :
  ∀ k n h page,
    (k < n)%nat →
    page_chain srv st h page n = true →
    linked_pages srv st h page k = true.
Proof.
  induction k as [|k IH]; intros n h page Hlt Hchain; simpl; [done|].
  destruct n as [|n]; [lia|]. simpl in Hchain.
  destruct (page_of _) as [[more next]|]; [|discriminate Hchain].
  destruct n as [|n]; [lia|].
  apply andb_true_iff in Hchain as [Hnext Hrest].
  rewrite Hnext. simpl. apply (IH (S n)); [lia|done].
Qed.

(** When [k] linked pages remain before the limit, [list_images] sends
    [k] requests and then raises at the limit. *)
Lemma list_images_limit (srv : Server) :
  ∀ k fuel images page count st,
    count = LIMIT_FOLLOWS + 1 - Z.of_nat k →
    (k ≤ fuel)%nat →
    linked_pages srv st (sent st) page k = true →
    ∃ st', list_images_rec fuel srv images page count st
           = (Raise limit_error, st') ∧
           length (sent st') = (length (sent st) + k)%nat ∧
           self st' = self st.
Proof.
  unfold LIMIT_FOLLOWS.
  induction k as [|k IH]; intros fuel images page count st Hcount Hfuel Hlink.
  - exists st. assert (Hgt : (count >? 15) = true) by lia.
    split; [|split; [lia|done]].
    destruct fuel; simpl; unfold LIMIT_FOLLOWS; by rewrite Hgt.
  - destruct fuel as [|fuel]; [lia|].
    simpl in Hlink.
    destruct (page_of _) as [[more next]|] eqn:Hpage; [|discriminate Hlink].
    apply andb_true_iff in Hlink as [Hnext Hrest].
    rewrite (list_images_rec_step fuel srv images page count st more next)
      by (unfold LIMIT_FOLLOWS; lia || done).
    cbv zeta. rewrite Hnext.
    set (st1 := mkState (self st) (accumulate images more (heap st)).2
                        (sent st ++ [images_request st page])).
    destruct (IH fuel (Some (accumulate images more (heap st)).1)
                next (count + 1) st1) as (st' & Hrun & Hlen & Hself).
    + lia.
    + lia.
    + by rewrite <- (linked_pages_self srv st st1 eq_refl).
    + exists st'. split; [done|]. split; [|done].
      rewrite Hlen. unfold st1. simpl. rewrite length_app. simpl.
      lia.
Qed.

(** The recursion bound of the model is never the reason why
    [list_images] stops. *)
Lemma list_images_rec_fuel (srv : Server) :
  ∀ fuel images page count st,
    (Z.to_nat (LIMIT_FOLLOWS + 1 - count) ≤ fuel)%nat →
    (list_images_rec fuel srv images page count st).1 ≠ Raise OutOfFuel.
Proof.
  unfold LIMIT_FOLLOWS.
  induction fuel as [|fuel IH]; intros images page count st Hfuel.
  - simpl. unfold LIMIT_FOLLOWS.
    assert (Hgt : (count >? 15) = true) by lia. by rewrite Hgt.
  - cbn [list_images_rec]. unfold LIMIT_FOLLOWS.
    destruct (count >? 15) eqn:Hgt; [done|].
    unfold send, response_json, dict_get, py_iter, alloc, extend.
    unfold_monad. simpl.
    destruct (ok _); [|done]. simpl.
    destruct (body _) as [[| | | |l|d]|]; try done. simpl.
    destruct images as [l|]; simpl.
    + destruct (elements_of _) as [more|]; [|done]. simpl.
      destruct (truthy _); [|done].
      apply IH. lia.
    + destruct (elements_of _) as [more|]; [|done]. simpl.
      destruct (truthy _); [|done].
      apply IH. lia.
Qed.

Lemma list_images_total (srv : Server) (images : option loc)
      (page : value) (count : Z) (st : State) :
  (list_images srv images page count st).1 ≠ Raise OutOfFuel.
Proof. apply list_images_rec_fuel. unfold LIMIT_FOLLOWS. lia. Qed.

(** A listing that fits under the limit is followed to its end: one
    request per page, and the accumulator holds the repositories of all
    the pages in page order. *)
Lemma list_images_follows_chain (srv : Server) :
  ∀ n fuel images page count st,
    (1 ≤ n)%nat →
    count + Z.of_nat n ≤ LIMIT_FOLLOWS + 1 →
    (n ≤ fuel)%nat →
    page_chain srv st (sent st) page n = true →
    let acc := accumulate images
                 (chain_repositories srv st (sent st) page n) (heap st) in
    ∃ st', list_images_rec fuel srv images page count st = (Ok acc.1, st') ∧
           self st' = self st ∧
           heap st' = acc.2 ∧
           length (sent st') = (length (sent st) + n)%nat.
Proof.
  unfold LIMIT_FOLLOWS.
  induction n as [|n IH]; intros fuel images page count st Hn Hcount Hfuel
                                 Hchain; [lia|].
  destruct fuel as [|fuel]; [lia|].
  cbn [page_chain chain_repositories] in *.
  destruct (page_of _) as [[more next]|] eqn:Hpage; [|discriminate Hchain].
  rewrite (list_images_rec_step fuel srv images page count st more next)
    by (unfold LIMIT_FOLLOWS; lia || done).
  cbv zeta.
  destruct n as [|n].
  - apply negb_true_iff in Hchain. rewrite Hchain.
    cbn [chain_repositories]. rewrite app_nil_r.
    eexists. split; [done|]. simpl. split; [done|]. split; [done|].
    by rewrite length_app.
  - apply andb_true_iff in Hchain as [Hnext Hrest]. rewrite Hnext.
    set (st1 := mkState (self st) (accumulate images more (heap st)).2
                        (sent st ++ [images_request st page])).
    destruct (IH fuel (Some (accumulate images more (heap st)).1)
                next (count + 1) st1) as (st' & Hrun & Hself & Hheap & Hlen).
    + lia.
    + lia.
    + lia.
    + by rewrite <- (page_chain_self srv st st1 eq_refl).
    + exists st'. rewrite Hrun.
      rewrite <- (chain_repositories_self srv st st1 eq_refl) in *.
      change (heap st1) with (accumulate images more (heap st)).2 in *.
      change (sent st1) with (sent st ++ [images_request st page]) in *.
      rewrite accumulate_again in *.
      split; [done|]. split; [done|]. split; [done|].
      rewrite Hlen, length_app. simpl. lia.
Qed.

Example list_images_sixteen_pages :
  page_chain (QuayScenario.paged 16) QuayScenario.st0 [] VNone 16 = true ∧
  (list_images (QuayScenario.paged 16) None VNone 0 QuayScenario.st0).1
  = Ok 0%nat ∧
  length (sent (list_images (QuayScenario.paged 16) None VNone 0
                            QuayScenario.st0).2) = 16%nat.
Proof. repeat split; vm_compute; reflexivity. Qed.

(** C2, as stated, fails: a listing of exactly sixteen pages is followed
    to its end and returned; the depth reached is 15, which does not
    exceed the limit. *)
Lemma too_many_pages_counterexample :
  ¬ too_many_pages 16 (QuayScenario.paged 16) QuayScenario.st0 16.
Proof.
  intros Hclaim.
  destruct list_images_sixteen_pages as (Hchain & Hall & _).
  destruct (Hclaim (le_n 16) Hchain) as [He _].
  rewrite Hall in He. discriminate He.
Qed.

(** C2, amended.  For every pagination chain of 17 or more pages linked
    by next-page tokens, [list_images] sends the sixteen requests that the
    limit of fifteen follows allows and then, at depth 16, stops with the
    error of its depth guard, which is not the generic request failure,
    instead of asking for a seventeenth page.  A chain of at most sixteen
    pages, and so one of exactly sixteen, is followed to its end with one
    request per page, and the repositories of all its pages are returned
    in page order. *)
Theorem list_images_too_many_pages (srv : Server) (st : State) (n : nat) :
  too_many_pages 17 srv st n ∧ chain_returned srv st n.
Proof.
  split.
  - intros Hn Hchain res st'.
    destruct (list_images_limit srv 16 (Z.to_nat (LIMIT_FOLLOWS - 0) + 1)
                None VNone 0 st) as (s' & Hrun & Hlen & _).
    + reflexivity.
    + unfold LIMIT_FOLLOWS. lia.
    + apply (page_chain_linked srv st 16 n); [lia|done].
    + subst res st'. unfold list_images. rewrite Hrun. by simpl.
  - intros Hn Hchain res st'.
    assert (H1 : (1 ≤ n)%nat) by (destruct n; [discriminate Hchain|lia]).
    destruct (list_images_follows_chain srv n
                (Z.to_nat (LIMIT_FOLLOWS - 0) + 1) None VNone 0 st)
      as (s' & Hrun & Hself & Hheap & Hlen).
    + done.
    + unfold LIMIT_FOLLOWS. lia.
    + unfold LIMIT_FOLLOWS. simpl. lia.
    + done.
    + subst res st'. unfold list_images. rewrite Hrun. by simpl.
Qed.

Lemma list_images_too_many_pages_witness :
  ((17 ≤ 17)%nat ∧
   page_chain (QuayScenario.paged 17) QuayScenario.st0
              (sent QuayScenario.st0) VNone 17 = true ∧
   (list_images (QuayScenario.paged 17) None VNone 0 QuayScenario.st0).1
   = Raise limit_error ∧
   is_generic_error limit_error = false ∧
   length (sent (list_images (QuayScenario.paged 17) None VNone 0
                             QuayScenario.st0).2)
   = (length (sent QuayScenario.st0) + 16)%nat) ∧
  ((16 ≤ 16)%nat ∧
   page_chain (QuayScenario.paged 16) QuayScenario.st0
              (sent QuayScenario.st0) VNone 16 = true ∧
   (list_images (QuayScenario.paged 16) None VNone 0 QuayScenario.st0).1
   = Ok (length (heap QuayScenario.st0)) ∧
   self (list_images (QuayScenario.paged 16) None VNone 0
                     QuayScenario.st0).2 = self QuayScenario.st0 ∧
   heap (list_images (QuayScenario.paged 16) None VNone 0
                     QuayScenario.st0).2
   = heap QuayScenario.st0
     ++ [chain_repositories (QuayScenario.paged 16) QuayScenario.st0
           (sent QuayScenario.st0) VNone 16] ∧
   length (sent (list_images (QuayScenario.paged 16) None VNone 0
                             QuayScenario.st0).2)
   = (length (sent QuayScenario.st0) + 16)%nat).
Proof.
  assert (H1 : (17 ≤ 17)%nat) by lia.
  assert (H2 : page_chain (QuayScenario.paged 17) QuayScenario.st0
                          (sent QuayScenario.st0) VNone 17 = true)
    by (vm_compute; reflexivity).
  assert (H3 : (16 ≤ 16)%nat) by lia.
  assert (H4 : page_chain (QuayScenario.paged 16) QuayScenario.st0
                          (sent QuayScenario.st0) VNone 16 = true)
    by (vm_compute; reflexivity).
  split.
  - split; [exact H1|]. split; [exact H2|].
    exact (proj1 (list_images_too_many_pages (QuayScenario.paged 17)
                    QuayScenario.st0 17) H1 H2).
  - split; [exact H3|]. split; [exact H4|].
    exact (proj2 (list_images_too_many_pages (QuayScenario.paged 16)
                    QuayScenario.st0 16) H3 H4).
Defined.

(** ** Further properties of [amtool.py] *)

Import AmtoolExtra.

#[local] Set Warnings "-clear-no-such-hyp".

(** X1.  When the temporary file can be set up, [check_config] runs the
    validator exactly once, as [amtool check-config <path>] with the path
    of the temporary file last, and at that moment the file holds exactly
    the text given: the text has been flushed before the validator
    starts. *)
Theorem check_config_runs_validator_on_text (env : Env)
        (yaml_str : string) (w : World) (n : string) :
  mkstemp env (files w) = inr n →
  files w !! n = None →
  setup_error env yaml_str w = None →
  runs w (check_config env yaml_str w).2
  = [(["amtool"; "check-config"; n],
      exec env ["amtool"; "check-config"; n]
           (<[n := yaml_str]> (files w)))].
Proof.
  intros Hname Hfree Hsetup. unfold setup_error in Hsetup.
  unfold check_config, runs.
  rewrite run_yaml_str_cmd_unfold, try_block_closed_form.
  rewrite Hname, Hfree in *. simpl.
  destruct (write_error env n yaml_str); [discriminate Hsetup|].
  rewrite Hsetup.
  destruct (exec env _ _) as [rc out err|e]; simpl.
  - destruct (rc =? 0); simpl.
    + destruct (utf8_valid out); simpl; by rewrite drop_length_app.
    + by rewrite drop_length_app.
  - by rewrite drop_length_app.
Qed.

Lemma check_config_runs_validator_on_text_witness :
  mkstemp env_reads_file (files AmtoolScenario.empty_world)
  = inr "/tmp/tmp0" ∧
  files AmtoolScenario.empty_world !! "/tmp/tmp0" = None ∧
  setup_error env_reads_file "ok" AmtoolScenario.empty_world = None ∧
  runs AmtoolScenario.empty_world
       (check_config env_reads_file "ok" AmtoolScenario.empty_world).2
  = [(["amtool"; "check-config"; "/tmp/tmp0"],
      Exited 0 (list_byte_of_string "SUCCESS") [])].
Proof.
  assert (H1 : mkstemp env_reads_file (files AmtoolScenario.empty_world)
               = inr "/tmp/tmp0") by reflexivity.
  assert (H2 : files AmtoolScenario.empty_world !! "/tmp/tmp0" = None)
    by reflexivity.
  assert (H3 : setup_error env_reads_file "ok" AmtoolScenario.empty_world
               = None) by reflexivity.
  split; [exact H1|]. split; [exact H2|]. split; [exact H3|].
  exact (check_config_runs_validator_on_text env_reads_file "ok"
           AmtoolScenario.empty_world "/tmp/tmp0" H1 H2 H3).
Defined.

(** X2.  When the temporary file cannot be set up (it cannot be created,
    written or flushed), [check_config] starts no program at all and
    returns a failed result whose message is ["Error running amtool: "]
    followed by the text of that error. *)
Theorem check_config_setup_failure (env : Env) (yaml_str : string)
        (w : World) (e : exn) :
  setup_error env yaml_str w = Some e →
  (check_config env yaml_str w).1
  = Ok (mkAmtoolResult false ("Error running amtool: " +:+ str env e)) ∧
  runs w (check_config env yaml_str w).2 = [].
Proof.
  intros Hsetup. unfold setup_error in Hsetup.
  unfold check_config, runs.
  rewrite run_yaml_str_cmd_unfold, try_block_closed_form.
  destruct (mkstemp env (files w)) as [e0|n]; simpl.
  { injection Hsetup as ->. by rewrite drop_length_self. }
  destruct (files w !! n); simpl.
  { injection Hsetup as <-. by rewrite drop_length_self. }
  destruct (write_error env n yaml_str); simpl.
  { injection Hsetup as ->. by rewrite drop_length_self. }
  rewrite Hsetup. simpl. by rewrite drop_length_self.
Qed.

Lemma check_config_setup_failure_witness :
  setup_error env_flush_fails "route: {}" AmtoolScenario.empty_world
  = Some (OSError "Input/output error") ∧
  (check_config env_flush_fails "route: {}" AmtoolScenario.empty_world).1
  = Ok (mkAmtoolResult false "Error running amtool: Input/output error") ∧
  runs AmtoolScenario.empty_world
       (check_config env_flush_fails "route: {}"
                     AmtoolScenario.empty_world).2 = [].
Proof.
  assert (H : setup_error env_flush_fails "route: {}"
                          AmtoolScenario.empty_world
              = Some (OSError "Input/output error")) by reflexivity.
  split; [exact H|].
  exact (check_config_setup_failure env_flush_fails "route: {}"
           AmtoolScenario.empty_world _ H).
Defined.

(** X3.  The only error [check_config] lets through is the decoding
    error of the output of a validator that exited with status 0; every
    other failure becomes a result. *)
Theorem check_config_only_decoding_escapes (env : Env) (yaml_str : string)
        (w : World) :
  match (check_config env yaml_str w).1 with
  | Ok _ => True
  | Raise e =>
      ∃ cmd out err,
        e = UnicodeDecodeError out ∧
        utf8_valid out = false ∧
        runs w (check_config env yaml_str w).2 = [(cmd, Exited 0 out err)]
  end.
Proof.
  unfold check_config, runs.
  rewrite run_yaml_str_cmd_unfold, try_block_closed_form.
  destruct (mkstemp env (files w)) as [e|n]; simpl; [done|].
  destruct (files w !! n); simpl; [done|].
  destruct (write_error env n yaml_str); simpl; [done|].
  destruct (flush_error env n yaml_str); simpl; [done|].
  destruct (exec env _ _) as [rc out err|e] eqn:Hexec; simpl; [|done].
  destruct (rc =? 0) eqn:Hrc; simpl; [|done].
  destruct (utf8_valid out) eqn:Hutf; simpl; [done|].
  apply Z.eqb_eq in Hrc as ->.
  eexists _, out, err. cbn [spawned]. by rewrite drop_length_app.
Qed.

Lemma remove_newlines_spec (s : string) :
  has_newline (remove_newlines s) = false ∧
  (has_newline s = false → remove_newlines s = s).
Proof.
  induction s as [|a s [IH1 IH2]]; [done|].
  cbn [remove_newlines has_newline].
  destruct (Ascii.eqb a (ascii_of_nat 10)) eqn:Ha.
  - split; [done|discriminate].
  - cbn [has_newline]. rewrite Ha. simpl. split; [done|].
    intros H. by rewrite IH2.
Qed.

Lemma remove_newlines_app (s t : string) :
  remove_newlines (s +:+ t) = remove_newlines s +:+ remove_newlines t.
Proof.
  induction s as [|a s IH]; [done|].
  change (String a s +:+ t) with (String a (s +:+ t)).
  cbn [remove_newlines]. rewrite IH.
  by destruct (Ascii.eqb a (ascii_of_nat 10)).
Qed.

(** X4.  [str(result)] never contains a line break; it is the message
    itself when the message has none, and the message of a failed
    [check_config] keeps its prefix ["Error running amtool: "] in it. *)
Theorem AmtoolResult_str_single_line (r : AmtoolResult) (cause : string) :
  has_newline (AmtoolResult_str r) = false ∧
  (has_newline (message r) = false → AmtoolResult_str r = message r) ∧
  AmtoolResult_str (mkAmtoolResult false ("Error running amtool: " +:+ cause))
  = "Error running amtool: " +:+ remove_newlines cause.
Proof.
  unfold AmtoolResult_str.
  split; [apply remove_newlines_spec|].
  split; [apply remove_newlines_spec|].
  simpl message. by rewrite remove_newlines_app.
Qed.

(** ** Further properties of [quay_api.py]: team members *)

Import QuayExtra.

Lemma existsb_scalar_eq_str (n : string) (acc : list string) :
  existsb (scalar_eq (VStr n)) (VStr <$> acc) = bool_decide (n ∈ acc).
Proof.
  induction acc as [|a acc IH]; [done|].
  rewrite fmap_cons. cbn [existsb scalar_eq].
  rewrite IH. destruct (String.eqb n a) eqn:Hna; simpl.
  - apply String.eqb_eq in Hna as ->.
    symmetry. apply bool_decide_eq_true. by left.
  - apply String.eqb_neq in Hna.
    apply bool_decide_ext. set_solver.
Qed.

(** [collect_names] on member objects with string names: the set is the
    names seen so far, each once. *)
Lemma collect_names_strings (st : State) :
  ∀ items names acc,
    Forall2 (fun m n => member_name m = Some n) items names →
    NoDup acc →
    ∃ ms, collect_names items (VStr <$> acc) st = (Ok (VStr <$> ms), st) ∧
          NoDup ms ∧
          ∀ n, n ∈ ms ↔ n ∈ acc ∨ n ∈ names.
Proof.
  intros items names acc Hall. revert acc.
  induction Hall as [|m n items names Hm Hall IH]; intros acc Hnd.
  { exists acc. split; [done|]. split; [done|]. set_solver. }
  unfold member_name in Hm.
  destruct m as [| | | |l|d]; try discriminate Hm.
  destruct (assoc "name" d) as [[| | |s| |]|] eqn:Hname; try discriminate Hm.
  injection Hm as ->.
  cbn [collect_names]. unfold getitem, set_add. unfold_monad.
  rewrite Hname. simpl. rewrite existsb_scalar_eq_str.
  destruct (bool_decide (n ∈ acc)) eqn:Hin.
  - apply bool_decide_eq_true in Hin.
    destruct (IH acc Hnd) as (ms & Hrun & Hms & Hiff).
    exists ms. split; [done|]. split; [done|].
    intros x. rewrite Hiff. set_solver.
  - apply bool_decide_eq_false in Hin.
    assert (Hnd' : NoDup (acc ++ [n])).
    { apply NoDup_app. split; [done|]. split; [|apply NoDup_singleton].
      intros x Hx Hx'. apply list_elem_of_singleton in Hx'. by subst. }
    destruct (IH (acc ++ [n]) Hnd') as (ms & Hrun & Hms & Hiff).
    exists ms. rewrite fmap_app in Hrun. split; [done|]. split; [done|].
    intros x. rewrite Hiff. set_solver.
Qed.

Lemma member_names_strings (r : Response) (names : list string)
      (st : State) :
  lists_members r names →
  ∃ ms, member_names r st = (Ok (VStr <$> ms), st) ∧
        NoDup ms ∧ ∀ n, n ∈ ms ↔ n ∈ names.
Proof.
  intros (_ & _ & d & items & Hbody & Hmembers & Hall).
  destruct (collect_names_strings st items names [] Hall (NoDup_nil_2))
    as (ms & Hrun & Hnd & Hiff).
  exists ms. split; [|split; [done|]].
  - unfold member_names, response_json, getitem, py_iter. unfold_monad.
    rewrite Hbody. simpl. rewrite Hmembers. simpl. exact Hrun.
  - intros n. rewrite Hiff. set_solver.
Qed.

(** [list_team_members] on a listing with string names. *)
Lemma list_team_members_on_listing (srv : Server) (team : string)
      (cache : bool) (st : State) (names : list string) :
  (if cache then cache_lookup st team else None) = None →
  lists_members (srv (sent st) (team_members_request st team)) names →
  ∃ ms, list_team_members srv team cache st
        = (Ok (length (heap st)), after_fetch st team (VStr <$> ms)) ∧
        NoDup ms ∧ ∀ n, n ∈ ms ↔ n ∈ names.
Proof.
  intros Hmiss Hlist.
  destruct (member_names_strings _ names
              (after_send st (team_members_request st team)) Hlist)
    as (ms & Hrun & Hnd & Hiff).
  exists ms. split; [|done].
  rewrite (list_team_members_fetch _ _ _ _ Hmiss). cbv zeta.
  destruct Hlist as (H404 & Hok & _).
  apply Z.eqb_neq in H404. rewrite H404, Hok. by rewrite Hrun.
Qed.

(** X5.  Deduplication.  When [list_team_members] asks the server and the
    answer is a listing whose member objects have the names [names], the
    call returns a new list object, enters it in the cache under the team,
    and the list holds every listed name exactly once, however often the
    server repeats it. *)
Theorem list_team_members_deduplicates (srv : Server) (team : string)
        (cache : bool) (st : State) (names : list string) :
  (if cache then cache_lookup st team else None) = None →
  lists_members (srv (sent st) (team_members_request st team)) names →
  ∃ ms, list_team_members srv team cache st
        = (Ok (length (heap st)), after_fetch st team (VStr <$> ms)) ∧
        NoDup ms ∧ ∀ n, n ∈ ms ↔ n ∈ names.
Proof. apply list_team_members_on_listing. Qed.

Lemma list_team_members_deduplicates_witness :
  let srv := team_server ["alice"; "bob"; "alice"] in
  (if false then cache_lookup QuayScenario.st0 "blue" else None) = None ∧
  lists_members
    (srv (sent QuayScenario.st0)
         (team_members_request QuayScenario.st0 "blue"))
    ["alice"; "bob"; "alice"] ∧
  ∃ ms, list_team_members srv "blue" false QuayScenario.st0
        = (Ok (length (heap QuayScenario.st0)),
           after_fetch QuayScenario.st0 "blue" (VStr <$> ms)) ∧
        NoDup ms ∧ ∀ n, n ∈ ms ↔ n ∈ ["alice"; "bob"; "alice"].
Proof.
  assert (H1 : (if false then cache_lookup QuayScenario.st0 "blue" else None)
               = @None loc) by reflexivity.
  assert (H2 : lists_members
                 (team_server ["alice"; "bob"; "alice"]
                    (sent QuayScenario.st0)
                    (team_members_request QuayScenario.st0 "blue"))
                 ["alice"; "bob"; "alice"]).
  { split; [discriminate|]. split; [reflexivity|].
    eexists _, _. split; [reflexivity|]. split; [reflexivity|].
    repeat constructor. }
  split; [exact H1|]. split; [exact H2|].
  exact (list_team_members_deduplicates
           (team_server ["alice"; "bob"; "alice"]) "blue" false
           QuayScenario.st0 ["alice"; "bob"; "alice"] H1 H2).
Defined.

Lemma existsb_eq_str (user : string) (ms : list string) :
  existsb (fun m => eq_str m user) (VStr <$> ms) = bool_decide (user ∈ ms).
Proof.
  induction ms as [|a ms IH]; [done|].
  rewrite fmap_cons. cbn [existsb eq_str]. rewrite IH.
  destruct (String.eqb a user) eqn:Ha; simpl.
  - apply String.eqb_eq in Ha as ->.
    symmetry. apply bool_decide_eq_true. by left.
  - apply String.eqb_neq in Ha. apply bool_decide_ext. set_solver.
Qed.

(** [add_user_to_team] after its lookup has returned the list [l]. *)
Lemma add_user_to_team_after_lookup (srv : Server) (user team : string)
      (st st1 : State) (l : loc) :
  list_team_members srv team true st = (Ok l, st1) →
  add_user_to_team srv user team st
  = if existsb (fun m => eq_str m user) (deref st1 l)
    then (Ok true, st1)
    else (put_outcome (srv (sent st1) (team_put_request st1 user team)),
          after_send st1 (team_put_request st1 user team)).
Proof.
  intros Hlookup. unfold add_user_to_team, send, put_outcome. unfold_monad.
  rewrite Hlookup. simpl.
  destruct (existsb _ _); [done|].
  by destruct (ok _).
Qed.

(** X6.  [add_user_to_team] sends nothing when the cached list of the team
    already holds the user: it returns [True] and leaves the client as it
    was. *)
Theorem add_user_to_team_cached_member (srv : Server) (user team : string)
        (st : State) (l : loc) :
  cache_lookup st team = Some l →
  existsb (fun m => eq_str m user) (deref st l) = true →
  add_user_to_team srv user team st = (Ok true, st).
Proof.
  intros Hhit Hin.
  rewrite (add_user_to_team_after_lookup srv user team st st l
             (list_team_members_hit srv team st l Hhit)).
  by rewrite Hin.
Qed.

Lemma add_user_to_team_cached_member_witness :
  cache_lookup (QuayScenario.fetched ["alice"; "bob"]) "blue"
  = Some 0%nat ∧
  existsb (fun m => eq_str m "bob")
          (deref (QuayScenario.fetched ["alice"; "bob"]) 0%nat) = true ∧
  add_user_to_team (QuayScenario.always QuayScenario.bad_gateway)
                   "bob" "blue" (QuayScenario.fetched ["alice"; "bob"])
  = (Ok true, QuayScenario.fetched ["alice"; "bob"]).
Proof.
  assert (H1 : cache_lookup (QuayScenario.fetched ["alice"; "bob"]) "blue"
               = Some 0%nat) by (vm_compute; reflexivity).
  assert (H2 : existsb (fun m => eq_str m "bob")
                 (deref (QuayScenario.fetched ["alice"; "bob"]) 0%nat)
               = true) by reflexivity.
  split; [exact H1|]. split; [exact H2|].
  exact (add_user_to_team_cached_member
           (QuayScenario.always QuayScenario.bad_gateway) "bob" "blue"
           (QuayScenario.fetched ["alice"; "bob"]) 0%nat H1 H2).
Defined.

(** X7.  The cache goes stale.  When the cached list of the team does not
    hold the user, [add_user_to_team] sends the PUT, and returns [True]
    unless the answer has a status from 400 to 599; the cached list is
    not extended, so the same call made again sends the same PUT again. *)
Theorem add_user_to_team_repeats_put (srv : Server) (user team : string)
        (st : State) (l : loc) :
  cache_lookup st team = Some l →
  existsb (fun m => eq_str m user) (deref st l) = false →
  let rq := team_put_request st user team in
  add_user_to_team srv user team st
  = (put_outcome (srv (sent st) rq), after_send st rq) ∧
  add_user_to_team srv user team (after_send st rq)
  = (put_outcome (srv (sent st ++ [rq]) rq),
     after_send (after_send st rq) rq).
Proof.
  intros Hhit Hout rq. split.
  - rewrite (add_user_to_team_after_lookup srv user team st st l
               (list_team_members_hit srv team st l Hhit)).
    by rewrite Hout.
  - assert (Hhit' : cache_lookup (after_send st rq) team = Some l) by done.
    rewrite (add_user_to_team_after_lookup srv user team _ _ l
               (list_team_members_hit srv team _ l Hhit')).
    change (deref (after_send st rq) l) with (deref st l).
    by rewrite Hout.
Qed.

Lemma add_user_to_team_repeats_put_witness :
  let st := QuayScenario.fetched ["alice"] in
  let srv := QuayScenario.always (QuayScenario.empty_status 200) in
  let rq := team_put_request st "bob" "blue" in
  cache_lookup st "blue" = Some 0%nat ∧
  existsb (fun m => eq_str m "bob") (deref st 0%nat) = false ∧
  add_user_to_team srv "bob" "blue" st
  = (put_outcome (srv (sent st) rq), after_send st rq) ∧
  add_user_to_team srv "bob" "blue" (after_send st rq)
  = (put_outcome (srv (sent st ++ [rq]) rq),
     after_send (after_send st rq) rq).
Proof.
  assert (H1 : cache_lookup (QuayScenario.fetched ["alice"]) "blue"
               = Some 0%nat) by (vm_compute; reflexivity).
  assert (H2 : existsb (fun m => eq_str m "bob")
                 (deref (QuayScenario.fetched ["alice"]) 0%nat) = false)
    by reflexivity.
  split; [exact H1|]. split; [exact H2|].
  exact (add_user_to_team_repeats_put
           (QuayScenario.always (QuayScenario.empty_status 200))
           "bob" "blue" (QuayScenario.fetched ["alice"]) 0%nat H1 H2).
Defined.

(** X8.  Adding a user to a team that the registry does not know: when
    the cache has no list for the team and the listing is answered with
    404, [add_user_to_team] raises the team-not-found error after that one
    request; no PUT is sent. *)
Theorem add_user_to_team_unknown_team (srv : Server) (user team : string)
        (st : State) :
  cache_lookup st team = None →
  status_code (srv (sent st) (team_members_request st team)) = 404 →
  add_user_to_team srv user team st
  = (Raise (team_not_found st team),
     after_send st (team_members_request st team)).
Proof.
  intros Hmiss H404.
  unfold add_user_to_team. unfold mbind at 1. unfold M_bind, bind at 1.
  rewrite (list_team_members_fetch srv team true st Hmiss). cbv zeta.
  by rewrite H404.
Qed.

Lemma add_user_to_team_unknown_team_witness :
  let srv := QuayScenario.always (QuayScenario.empty_status 404) in
  cache_lookup QuayScenario.st0 "blue" = None ∧
  status_code (srv (sent QuayScenario.st0)
                   (team_members_request QuayScenario.st0 "blue")) = 404 ∧
  add_user_to_team srv "bob" "blue" QuayScenario.st0
  = (Raise (team_not_found QuayScenario.st0 "blue"),
     after_send QuayScenario.st0
                (team_members_request QuayScenario.st0 "blue")).
Proof.
  assert (H1 : cache_lookup QuayScenario.st0 "blue" = None)
    by (vm_compute; reflexivity).
  assert (H2 : status_code
                 (QuayScenario.always (QuayScenario.empty_status 404)
                    (sent QuayScenario.st0)
                    (team_members_request QuayScenario.st0 "blue")) = 404)
    by reflexivity.
  split; [exact H1|]. split; [exact H2|].
  exact (add_user_to_team_unknown_team
           (QuayScenario.always (QuayScenario.empty_status 404))
           "bob" "blue" QuayScenario.st0 H1 H2).
Defined.

(** X9.  On a client without a cached list for the team,
    [add_user_to_team] first fetches the listing; it sends the PUT only if
    the listing does not name the user.  A user the registry already lists
    costs one request (the GET) and no PUT. *)
Theorem add_user_to_team_fetches_first (srv : Server) (user team : string)
        (st : State) (names : list string) :
  cache_lookup st team = None →
  lists_members (srv (sent st) (team_members_request st team)) names →
  ∃ ms,
    let st1 := after_fetch st team (VStr <$> ms) in
    let rq := team_put_request st1 user team in
    (∀ n, n ∈ ms ↔ n ∈ names) ∧
    add_user_to_team srv user team st
    = if bool_decide (user ∈ names) then (Ok true, st1)
      else (put_outcome (srv (sent st1) rq), after_send st1 rq).
Proof.
  intros Hmiss Hlist.
  destruct (list_team_members_on_listing srv team true st names Hmiss Hlist)
    as (ms & Hrun & _ & Hiff).
  exists ms. cbv zeta. split; [done|].
  rewrite (add_user_to_team_after_lookup srv user team st _ _ Hrun).
  rewrite deref_after_fetch, existsb_eq_str.
  rewrite (bool_decide_ext _ _ (Hiff user)).
  done.
Qed.

Lemma add_user_to_team_fetches_first_witness :
  let srv := team_server ["alice"; "bob"] in
  cache_lookup QuayScenario.st0 "blue" = None ∧
  lists_members
    (srv (sent QuayScenario.st0)
         (team_members_request QuayScenario.st0 "blue"))
    ["alice"; "bob"] ∧
  ∃ ms,
    let st1 := after_fetch QuayScenario.st0 "blue" (VStr <$> ms) in
    let rq := team_put_request st1 "bob" "blue" in
    (∀ n, n ∈ ms ↔ n ∈ ["alice"; "bob"]) ∧
    add_user_to_team srv "bob" "blue" QuayScenario.st0
    = if bool_decide ("bob" ∈ ["alice"; "bob"]) then (Ok true, st1)
      else (put_outcome (srv (sent st1) rq), after_send st1 rq).
Proof.
  assert (H1 : cache_lookup QuayScenario.st0 "blue" = None)
    by (vm_compute; reflexivity).
  assert (H2 : lists_members
                 (team_server ["alice"; "bob"] (sent QuayScenario.st0)
                    (team_members_request QuayScenario.st0 "blue"))
                 ["alice"; "bob"]).
  { split; [discriminate|]. split; [reflexivity|].
    eexists _, _. split; [reflexivity|]. split; [reflexivity|].
    repeat constructor. }
  split; [exact H1|]. split; [exact H2|].
  exact (add_user_to_team_fetches_first (team_server ["alice"; "bob"])
           "bob" "blue" QuayScenario.st0 ["alice"; "bob"] H1 H2).
Defined.

(** X10.  A lookup that fails changes nothing but the log of requests:
    whenever [list_team_members] raises, the cache and the list objects
    are those of before, and exactly the listing request was sent. *)
Theorem list_team_members_failure_keeps_cache (srv : Server)
        (team : string) (cache : bool) (st st' : State) (e : exn) :
  list_team_members srv team cache st = (Raise e, st') →
  st' = after_send st (team_members_request st team).
Proof.
  intros Hrun.
  destruct (if cache then cache_lookup st team else None) as [l|] eqn:Hc.
  - destruct cache; [|discriminate Hc].
    rewrite (list_team_members_hit _ _ _ _ Hc) in Hrun. discriminate Hrun.
  - rewrite (list_team_members_fetch _ _ _ _ Hc) in Hrun. cbv zeta in Hrun.
    destruct (status_code _ =? 404); [by injection Hrun|].
    destruct (ok _); [|by injection Hrun].
    destruct (member_names _ _).1; [discriminate Hrun|by injection Hrun].
Qed.

Lemma list_team_members_failure_keeps_cache_witness :
  let st := QuayScenario.fetched ["alice"] in
  let srv := QuayScenario.always QuayScenario.bad_gateway in
  list_team_members srv "blue" false st
  = (Raise (RequestsException_init QuayScenario.bad_gateway),
     after_send st (team_members_request st "blue")) ∧
  after_send st (team_members_request st "blue")
  = after_send st (team_members_request st "blue").
Proof.
  assert (H : list_team_members
                (QuayScenario.always QuayScenario.bad_gateway) "blue" false
                (QuayScenario.fetched ["alice"])
              = (Raise (RequestsException_init QuayScenario.bad_gateway),
                 after_send (QuayScenario.fetched ["alice"])
                   (team_members_request (QuayScenario.fetched ["alice"])
                                         "blue")))
    by reflexivity.
  split; [exact H|].
  exact (list_team_members_failure_keeps_cache _ _ _ _ _ _ H).
Defined.

(** X11.  A call without the cache flag always asks the server, also when
    a list is cached.  When it succeeds it returns a list object that did
    not exist before and makes the cache entry of the team point to it;
    the list objects handed out earlier keep their members, and the
    entries of the other teams are untouched. *)
Theorem list_team_members_refresh (srv : Server) (team : string)
        (st st' : State) (l : loc) :
  list_team_members srv team false st = (Ok l, st') →
  heap st !! l = None ∧
  team_members (self st') = <[team := l]> (team_members (self st)) ∧
  (∃ members, heap st' = heap st ++ [members] ∧ deref st' l = members) ∧
  sent st' = sent st ++ [team_members_request st team].
Proof.
  intros Hrun.
  rewrite (list_team_members_fetch srv team false st eq_refl) in Hrun.
  cbv zeta in Hrun.
  destruct (status_code _ =? 404); [discriminate Hrun|].
  destruct (ok _); [|discriminate Hrun].
  destruct (member_names _ _).1 as [members|e]; [|discriminate Hrun].
  injection Hrun as <- <-.
  split; [by apply lookup_ge_None_2|]. split; [done|]. split; [|done].
  exists members. split; [done|]. apply deref_after_fetch.
Qed.

Lemma list_team_members_refresh_witness :
  let st := QuayScenario.fetched ["alice"] in
  let srv := team_server ["alice"; "bob"] in
  list_team_members srv "blue" false st
  = (Ok 1%nat, after_fetch st "blue" [VStr "alice"; VStr "bob"]) ∧
  heap st !! 1%nat = None ∧
  team_members (self (after_fetch st "blue" [VStr "alice"; VStr "bob"]))
  = <["blue" := 1%nat]> (team_members (self st)) ∧
  (∃ members,
      heap (after_fetch st "blue" [VStr "alice"; VStr "bob"])
      = heap st ++ [members] ∧
      deref (after_fetch st "blue" [VStr "alice"; VStr "bob"]) 1%nat
      = members) ∧
  sent (after_fetch st "blue" [VStr "alice"; VStr "bob"])
  = sent st ++ [team_members_request st "blue"].
Proof.
  assert (H : list_team_members (team_server ["alice"; "bob"]) "blue" false
                (QuayScenario.fetched ["alice"])
              = (Ok 1%nat,
                 after_fetch (QuayScenario.fetched ["alice"]) "blue"
                             [VStr "alice"; VStr "bob"]))
    by reflexivity.
  split; [exact H|].
  exact (list_team_members_refresh _ _ _ _ _ H).
Defined.

(** ** Further properties of [quay_api.py]: repository listing *)

(** One call of [list_images] below the limit, in closed form. *)
Lemma list_images_rec_unfold (fuel : nat) (srv : Server)
      (images : option loc) (page : value) (count : Z) (st : State) :
  (count >? LIMIT_FOLLOWS) = false →
  list_images_rec (S fuel) srv images page count st
  = let rq := images_request st page in
    let r := srv (sent st) rq in
    let st1 := after_send st rq in
    if ok r then
      match body r with
      | None => (Raise JSONDecodeError, st1)
      | Some (VDict d) =>
          match elements_of (default (VList []) (assoc "repositories" d)) with
          | None =>
              (Raise (TypeError "object is not iterable"),
               mkState (self st)
                       (match images with
                        | None => heap st ++ [[]]
                        | Some _ => heap st
                        end)
                       (sent st ++ [rq]))
          | Some more =>
              let acc := accumulate images more (heap st) in
              let st2 := mkState (self st) acc.2 (sent st ++ [rq]) in
              if truthy (default VNone (assoc "next_page" d))
              then list_images_rec fuel srv (Some acc.1)
                     (default VNone (assoc "next_page" d)) (count + 1) st2
              else (Ok acc.1, st2)
          end
      | Some _ =>
          (Raise (AttributeError "object has no attribute 'get'"), st1)
      end
    else (Raise (RequestsException_init r), st1).
Proof.
  intros Hcount. cbn [list_images_rec]. rewrite Hcount. cbv zeta.
  unfold send, response_json, dict_get, py_iter, alloc, extend, deref,
    after_send.
  unfold_monad. simpl.
  destruct (ok _); [|done]. simpl.
  destruct (body _) as [[| | | |l|d]|]; try done. simpl.
  unfold default.
  destruct images as [l|]; simpl.
  - destruct (elements_of _) as [more|]; [|done]. simpl.
    by destruct (truthy _).
  - destruct (elements_of _) as [more|]; [|done]. simpl.
    rewrite list_lookup_middle by done. simpl. rewrite insert_at_end.
    by destruct (truthy _).
Qed.

Lemma serves_self (srv : Server) (st st' : State) :
  self st = self st' →
  ∀ ps h page, serves srv st h page ps → serves srv st' h page ps.
Proof.
  intros Hself ps. induction ps as [|p ps IH]; intros h page; [done|].
  cbn [serves]. rewrite (images_request_self st st' page Hself).
  intros [Hpage Hrest]. split; [done|].
  destruct ps as [|p' ps]; [done|].
  destruct Hrest as [Hnext Hrest]. split; [done|]. by apply IH.
Qed.

Lemma tokens_requested_cons (page : value) (p : list value * value)
      (ps : list (list value * value)) :
  tokens_requested page (p :: ps) = page :: tokens_requested p.2 ps.
Proof. reflexivity. Qed.

(** [list_images] on a listing of pages [ps] that fits under the limit. *)
Lemma list_images_rec_serves (srv : Server) :
  ∀ ps fuel images page count st,
    serves srv st (sent st) page ps →
    count + Z.of_nat (length ps) ≤ LIMIT_FOLLOWS + 1 →
    (length ps ≤ fuel)%nat →
    let acc := accumulate images (concat (fst <$> ps)) (heap st) in
    list_images_rec fuel srv images page count st
    = (Ok acc.1,
       mkState (self st) acc.2
               (sent st ++ (images_request st <$> tokens_requested page ps))).
Proof.
  unfold LIMIT_FOLLOWS.
  induction ps as [|[more next] ps IH];
    intros fuel images page count st Hserves Hcount Hfuel; [done|].
  destruct fuel as [|fuel]; [simpl in Hfuel; lia|].
  cbn [serves] in Hserves. destruct Hserves as [Hpage Hrest].
  simpl in Hcount, Hfuel.
  rewrite (list_images_rec_step fuel srv images page count st more next)
    by (unfold LIMIT_FOLLOWS; lia || done).
  cbv zeta. rewrite tokens_requested_cons.
  destruct ps as [|p' ps].
  - simpl in Hrest. rewrite Hrest. simpl. by rewrite app_nil_r.
  - destruct Hrest as [Hnext Hrest]. simpl in Hnext. rewrite Hnext.
    set (st1 := mkState (self st) (accumulate images more (heap st)).2
                        (sent st ++ [images_request st page])).
    pose proof (IH fuel (Some (accumulate images more (heap st)).1) next
                   (count + 1) st1) as Hrun.
    cbv zeta in Hrun. rewrite Hrun; clear Hrun.
    + change (heap st1) with (accumulate images more (heap st)).2.
      rewrite accumulate_again.
      cbn [fmap list_fmap concat fst snd].
      unfold st1. cbn [self heap sent].
      rewrite <- !app_assoc. reflexivity.
    + by apply (serves_self srv st st1 eq_refl).
    + simpl length in *. lia.
    + simpl length in *. lia.
Qed.

(** X12.  Pagination.  When the server serves a listing of at most
    sixteen pages, [list_images] returns the accumulator (the list it was
    given, extended in place, or a new list) holding the images it was
    given followed by the repositories of all the pages in page order,
    and it sends exactly one request per page: the first with the token it
    was given and each later one with the token of the page before. *)
Theorem list_images_pages_in_order (srv : Server)
        (images : option loc) (page : value) (st : State)
        (ps : list (list value * value)) :
  serves srv st (sent st) page ps →
  (length ps ≤ 16)%nat →
  let acc := accumulate images (concat (fst <$> ps)) (heap st) in
  list_images srv images page 0 st
  = (Ok acc.1,
     mkState (self st) acc.2
             (sent st ++ (images_request st <$> tokens_requested page ps))).
Proof.
  intros Hserves Hlen. unfold list_images.
  apply list_images_rec_serves; [done| |]; unfold LIMIT_FOLLOWS; simpl; lia.
Qed.

Lemma list_images_pages_in_order_witness :
  let srv := pages_server three_pages in
  let ps := [([repo "a"; repo "b"], VStr "token1");
             ([repo "c"; repo "d"], VStr "token2");
             ([repo "e"], VNone)] in
  serves srv QuayScenario.st0 (sent QuayScenario.st0) VNone ps ∧
  (length ps ≤ 16)%nat ∧
  list_images srv None VNone 0 QuayScenario.st0
  = (Ok 0%nat,
     mkState (self QuayScenario.st0)
             [[repo "a"; repo "b"; repo "c"; repo "d"; repo "e"]]
             (images_request QuayScenario.st0
                <$> [VNone; VStr "token1"; VStr "token2"])).
Proof.
  assert (H1 : serves (pages_server three_pages) QuayScenario.st0
                 (sent QuayScenario.st0) VNone
                 [([repo "a"; repo "b"], VStr "token1");
                  ([repo "c"; repo "d"], VStr "token2");
                  ([repo "e"], VNone)]).
  { cbn [serves]. repeat split; reflexivity. }
  assert (H2 : (length [([repo "a"; repo "b"], VStr "token1");
                        ([repo "c"; repo "d"], VStr "token2");
                        ([repo "e"], VNone)] ≤ 16)%nat) by (simpl; lia).
  split; [exact H1|]. split; [exact H2|].
  exact (list_images_pages_in_order (pages_server three_pages) None VNone
           QuayScenario.st0 _ H1 H2).
Defined.

(** The images given to [list_images] are kept: a list object passed as
    accumulator comes back with the pages added at its end. *)
Example list_images_extends_given_list :
  let st := QuayScenario.fetched ["alice"] in
  let srv := QuayScenario.always
               (mkResponse 200 ""
                  (Some (VDict [("repositories", VList [repo "a"])]))) in
  cache_lookup st "blue" = Some 0%nat ∧
  (list_images srv (Some 0%nat) VNone 0 st).1 = Ok 0%nat ∧
  deref (list_images srv (Some 0%nat) VNone 0 st).2 0%nat
  = [VStr "alice"; repo "a"].
Proof. split; [vm_compute; reflexivity|]. split; reflexivity. Qed.

Lemma extends_only_refl (images : option loc) (h : list (list value)) :
  extends_only images h h.
Proof.
  intros l ms Hl.
  destruct (decide (images = Some l)); [|done]. exists []. by rewrite app_nil_r.
Qed.

Lemma extends_only_new (images : option loc) (h new : list (list value)) :
  extends_only images h (h ++ new).
Proof.
  intros l ms Hl.
  assert (Hl' : (h ++ new) !! l = Some ms).
  { rewrite lookup_app_l; [done|]. exact (lookup_lt_Some _ _ _ Hl). }
  destruct (decide (images = Some l)); [|done].
  exists []. by rewrite app_nil_r.
Qed.

Lemma extends_only_accumulate (images : option loc) (more : list value)
      (h : list (list value)) :
  extends_only images h (accumulate images more h).2.
Proof.
  intros l ms Hl. destruct images as [l0|]; simpl.
  - destruct (decide (Some l0 = Some l)) as [Heq|Hne].
    + injection Heq as ->. exists more. rewrite Hl. simpl.
      apply list_lookup_insert_eq. exact (lookup_lt_Some _ _ _ Hl).
    + rewrite list_lookup_insert_ne; [done|]. congruence.
  - destruct (decide (None = Some l)) as [Heq|Hne]; [done|].
    rewrite lookup_app_l; [done|]. exact (lookup_lt_Some _ _ _ Hl).
Qed.

Lemma extends_only_step (images : option loc) (more : list value)
      (h h' : list (list value)) :
  extends_only (Some (accumulate images more h).1)
               (accumulate images more h).2 h' →
  extends_only images h h'.
Proof.
  intros Hrest l ms Hl.
  pose proof (extends_only_accumulate images more h l ms Hl) as Hacc.
  destruct (decide (images = Some l)) as [->|Hne].
  - destruct Hacc as [more1 Hacc]. simpl in *.
    specialize (Hrest l _ Hacc). rewrite decide_True in Hrest by done.
    destruct Hrest as [more2 Hrest]. exists (more1 ++ more2).
    by rewrite app_assoc.
  - specialize (Hrest l ms Hacc).
    rewrite decide_False in Hrest; [done|].
    intros [= Heq]. apply Hne.
    destruct images as [l0|]; simpl in Heq; [by subst|].
    apply lookup_lt_Some in Hl. lia.
Qed.

(** Whatever the server answers, a call of [list_images] keeps the client
    itself, extends at most its accumulator, and appends to the log no
    more requests than the limit leaves room for, each with the header of
    the client. *)
Lemma list_images_rec_effect (srv : Server) :
  ∀ fuel images page count st,
    let st' := (list_images_rec fuel srv images page count st).2 in
    self st' = self st ∧
    extends_only images (heap st) (heap st') ∧
    ∃ rqs, sent st' = sent st ++ rqs ∧
           Forall (fun rq => headers rq = auth_header (self st)) rqs ∧
           (length rqs ≤ Z.to_nat (LIMIT_FOLLOWS + 1 - count))%nat.
Proof.
  assert (Hnone : ∀ images (st : State) count,
             self st = self st ∧
             extends_only images (heap st) (heap st) ∧
             ∃ rqs, sent st = sent st ++ rqs ∧
                    Forall (fun rq => headers rq = auth_header (self st)) rqs ∧
                    (length rqs ≤ Z.to_nat (LIMIT_FOLLOWS + 1 - count))%nat).
  { intros images st count. split; [done|].
    split; [apply extends_only_refl|]. exists [].
    rewrite app_nil_r. split; [done|]. split; [constructor|simpl; lia]. }
  induction fuel as [|fuel IH]; intros images page count st; cbv zeta.
  { simpl. destruct (count >? LIMIT_FOLLOWS); apply Hnone. }
  destruct (count >? LIMIT_FOLLOWS) eqn:Hgt.
  { cbn [list_images_rec]. rewrite Hgt. apply Hnone. }
  rewrite (list_images_rec_unfold fuel srv images page count st Hgt).
  cbv zeta. set (rq := images_request st page).
  assert (Hone : ∃ rqs,
             sent st ++ [rq] = sent st ++ rqs ∧
             Forall (fun rq => headers rq = auth_header (self st)) rqs ∧
             (length rqs ≤ Z.to_nat (LIMIT_FOLLOWS + 1 - count))%nat).
  { exists [rq]. split; [done|]. split; [by repeat constructor|].
    simpl. unfold LIMIT_FOLLOWS in *. lia. }
  assert (Hsame : self (after_send st rq) = self st ∧
                  extends_only images (heap st) (heap (after_send st rq)) ∧
                  ∃ rqs, sent (after_send st rq) = sent st ++ rqs ∧
                         Forall (fun rq => headers rq = auth_header (self st))
                                rqs ∧
                         (length rqs
                          ≤ Z.to_nat (LIMIT_FOLLOWS + 1 - count))%nat).
  { split; [done|]. split; [apply extends_only_refl|apply Hone]. }
  destruct (ok _); [|exact Hsame].
  destruct (body _) as [[| | | |l|d]|]; try exact Hsame.
  destruct (elements_of _) as [more|].
  2:{ simpl. split; [done|]. split; [|apply Hone].
      destruct images; [apply extends_only_refl|apply extends_only_new]. }
  destruct (truthy _).
  2:{ simpl. split; [done|].
      split; [apply extends_only_accumulate|apply Hone]. }
  match goal with
  | |- self (list_images_rec _ _ ?i ?p ?c ?s).2 = _ ∧ _ =>
      destruct (IH i p c s) as (Hself & Hext & rqs & Hsent & Hall & Hlen)
  end.
  simpl in Hself, Hext, Hsent, Hall.
  split; [done|]. split; [by apply (extends_only_step images more)|].
  exists (rq :: rqs). split; [by rewrite Hsent, <- app_assoc|].
  split; [by constructor|]. simpl. unfold LIMIT_FOLLOWS in *. lia.
Qed.

(** X13.  Whatever the server answers, [list_images] sends at most
    sixteen requests when it is called with its default depth 0 (and at
    most [16 - count] when it is called at depth [count]); it never
    changes the member cache mapping; and of the list objects that
    existed before the call it changes at most the one it was given as
    accumulator, which it extends at its end (so a cached member list
    passed as accumulator does grow); every other list keeps its
    members. *)
Theorem list_images_request_bound (srv : Server)
        (images : option loc) (page : value) (count : Z)
        (st : State) :
  let st' := (list_images srv images page count st).2 in
  self st' = self st ∧
  extends_only images (heap st) (heap st') ∧
  ∃ rqs, sent st' = sent st ++ rqs ∧
         (length rqs ≤ Z.to_nat (LIMIT_FOLLOWS + 1 - count))%nat.
Proof.
  unfold list_images. cbv zeta.
  destruct (list_images_rec_effect srv
              (Z.to_nat (LIMIT_FOLLOWS - count) + 1) images page count st)
    as (Hself & Hext & rqs & Hsent & _ & Hlen).
  split; [done|]. split; [done|]. by exists rqs.
Qed.

Lemma list_images_rec_errors (srv : Server) :
  ∀ fuel images page count st,
    (Z.to_nat (LIMIT_FOLLOWS + 1 - count) ≤ fuel)%nat →
    match (list_images_rec fuel srv images page count st).1 with
    | Ok _ => True
    | Raise e => list_images_error e
    end.
Proof.
  unfold list_images_error.
  induction fuel as [|fuel IH]; intros images page count st Hfuel.
  - simpl. assert (Hgt : (count >? LIMIT_FOLLOWS) = true)
      by (unfold LIMIT_FOLLOWS in *; lia).
    rewrite Hgt. simpl. by left.
  - destruct (count >? LIMIT_FOLLOWS) eqn:Hgt.
    { cbn [list_images_rec]. rewrite Hgt. simpl. by left. }
    rewrite (list_images_rec_unfold fuel srv images page count st Hgt).
    cbv zeta.
    destruct (ok _) eqn:Hok; simpl; [|right; left; eauto].
    destruct (body _) as [[| | | |l|d]|]; simpl; try by auto 6.
    destruct (elements_of _) as [more|]; simpl; [|by auto 6].
    destruct (truthy _); [|done].
    apply IH. unfold LIMIT_FOLLOWS in *. lia.
Qed.

(** X14.  The ways [list_images] can fail: with the error of the depth
    limit, with the generic error of a response whose status is from 400
    to 599, or with the error of reading a body that is not JSON, is not
    an object, or whose [repositories] cannot be iterated.  Nothing else
    is raised. *)
Theorem list_images_errors (srv : Server) (images : option loc)
        (page : value) (count : Z) (st : State) :
  match (list_images srv images page count st).1 with
  | Ok _ => True
  | Raise e => list_images_error e
  end.
Proof.
  unfold list_images. apply list_images_rec_errors.
  unfold LIMIT_FOLLOWS. lia.
Qed.

Lemma always_more_linked (srv : Server) (st : State) :
  always_more srv →
  ∀ n h page, linked_pages srv st h page n = true.
Proof.
  intros Hmore n. induction n as [|n IH]; intros h page; simpl; [done|].
  destruct (Hmore h (images_request st page)) as (more & next & -> & ->).
  simpl. apply IH.
Qed.

(** X15.  Pagination loops end.  Against a server whose every answer is a
    page with a next-page token, [list_images] stops with the error of
    the depth limit after exactly sixteen requests (after [16 - count]
    when it is called at depth [count]). *)
Theorem list_images_stops_on_loops (srv : Server)
        (images : option loc) (page : value) (count : Z)
        (st : State) :
  always_more srv →
  (list_images srv images page count st).1 = Raise limit_error ∧
  length (sent (list_images srv images page count st).2)
  = (length (sent st) + Z.to_nat (LIMIT_FOLLOWS + 1 - count))%nat.
Proof.
  intros Hmore. unfold list_images.
  destruct (Z_le_gt_dec count (LIMIT_FOLLOWS + 1)) as [Hle|Hgt].
  - destruct (list_images_limit srv (Z.to_nat (LIMIT_FOLLOWS + 1 - count))
                (Z.to_nat (LIMIT_FOLLOWS - count) + 1) images page count st)
      as (st' & -> & Hlen & _).
    + unfold LIMIT_FOLLOWS in *. lia.
    + unfold LIMIT_FOLLOWS in *. lia.
    + by apply always_more_linked.
    + done.
  - unfold LIMIT_FOLLOWS in *.
    replace (Z.to_nat (15 - count)) with 0%nat by lia.
    replace (Z.to_nat (15 + 1 - count)) with 0%nat by lia.
    assert (Hc : (count >? 15) = true) by lia.
    simpl. unfold LIMIT_FOLLOWS. rewrite Hc. simpl. split; [done|lia].
Qed.

Lemma list_images_stops_on_loops_witness :
  always_more looping ∧
  (list_images looping None VNone 0 QuayScenario.st0).1
  = Raise limit_error ∧
  length (sent (list_images looping None VNone 0 QuayScenario.st0).2)
  = (length (sent QuayScenario.st0) + Z.to_nat (LIMIT_FOLLOWS + 1 - 0))%nat.
Proof.
  assert (H : always_more looping).
  { intros h rq. eexists _, _. split; reflexivity. }
  split; [exact H|].
  exact (list_images_stops_on_loops looping None VNone 0 QuayScenario.st0 H).
Defined.

(** ** Further properties of [quay_api.py]: the client as a whole *)

Lemma sent_only_refl (P : Request -> Prop) (st : State) : sent_only P st st.
Proof. exists []. by rewrite app_nil_r. Qed.

Lemma sent_only_send (P : Request -> Prop) (st : State) (rq : Request) :
  P rq → sent_only P st (after_send st rq).
Proof. intros HP. exists [rq]. split; [done|]. by constructor. Qed.

Lemma sent_only_trans (P : Request -> Prop) (st1 st2 st3 : State) :
  sent_only P st1 st2 → sent_only P st2 st3 → sent_only P st1 st3.
Proof.
  intros (r1 & H1 & F1) (r2 & H2 & F2). exists (r1 ++ r2).
  split; [by rewrite H2, H1, app_assoc|]. by apply Forall_app.
Qed.

(** What a call of [list_team_members] does to the client. *)
Lemma list_team_members_effect (srv : Server) (team : string)
      (cache : bool) (st : State) :
  let st' := (list_team_members srv team cache st).2 in
  same_identity (self st') (self st) ∧
  sent_only (fun rq => headers rq = auth_header (self st)) st st'.
Proof.
  cbv zeta. unfold same_identity.
  destruct (if cache then cache_lookup st team else None) as [l|] eqn:Hc.
  - destruct cache; [|discriminate Hc].
    rewrite (list_team_members_hit _ _ _ _ Hc). simpl.
    split; [done|apply sent_only_refl].
  - rewrite (list_team_members_fetch _ _ _ _ Hc). cbv zeta.
    destruct (status_code _ =? 404); simpl;
      [split; [done|apply sent_only_send; reflexivity]|].
    destruct (ok _); simpl; [|split; [done|apply sent_only_send; reflexivity]].
    destruct (member_names _ _).1; simpl;
      [|split; [done|apply sent_only_send; reflexivity]].
    split; [done|]. exists [team_members_request st team].
    split; [reflexivity|]. by repeat constructor.
Qed.

Lemma checked_effect (srv : Server) (rq : Request) (st : State) :
  checked srv rq st = (status_only (srv (sent st) rq), after_send st rq).
Proof.
  unfold checked, send, status_only. unfold_monad. by destruct (ok _).
Qed.

Lemma get_repo_team_permissions_state (srv : Server)
      (repo_name team : string) (st : State) :
  (get_repo_team_permissions srv repo_name team st).2
  = after_send st (permission_request st repo_name team).
Proof.
  unfold get_repo_team_permissions, send, response_json, getitem, dict_get.
  unfold_monad. simpl.
  destruct (ok _); simpl.
  - destruct (body _) as [[| | | |l|d]|]; simpl; done.
  - destruct (body _) as [[| | | |l|d]|]; simpl; try done.
    destruct (assoc "message" d); simpl; [|done].
    by destruct (eq_str _ _).
Qed.

(** What any call does to the client. *)
Lemma call_effect (srv : Server) (c : call) (st : State) :
  same_identity (self (state_after srv c st)) (self st) ∧
  sent_only (fun rq => headers rq = auth_header (self st))
            st (state_after srv c st) ∧
  (uses_cache c = false →
   self (state_after srv c st) = self st ∧
   extends_only (accumulator_of c) (heap st)
                (heap (state_after srv c st))).
Proof.
  pose proof list_team_members_effect as Hlookup.
  pose proof extends_only_refl as Hrefl.
  unfold same_identity in *.
  destruct c; cbn [state_after uses_cache accumulator_of].
  - destruct (Hlookup srv team cache st) as [Hid Hsent].
    split; [exact Hid|]. split; [exact Hsent|]. discriminate.
  - assert (Hrun : (user_exists srv user st).2
                   = after_send st (user_request st user)).
    { unfold user_exists, send. unfold_monad. simpl. by destruct (ok _). }
    rewrite Hrun. split; [done|].
    split; [apply sent_only_send; reflexivity|]. intros _. split; [done|].
    apply Hrefl.
  - destruct (ok (srv (sent st) (team_delete_request st user team))
              || message_is (srv (sent st) (team_delete_request st user team))
                            (not_in_team_message user team)) eqn:Hgo.
    + rewrite (remove_user_from_team_proceeds srv user team st Hgo).
      split; [done|]. split; [|intros _; split; [done|apply Hrefl]].
      apply (sent_only_trans _ st
               (after_send st (team_delete_request st user team)));
        apply sent_only_send; reflexivity.
    + destruct (remove_user_from_team_stops srv user team st Hgo) as [e ->].
      split; [done|]. split; [apply sent_only_send; reflexivity|].
      intros _. split; [done|apply Hrefl].
  - destruct (Hlookup srv team true st) as [Hid Hsent].
    destruct (list_team_members srv team true st) as [[l|e] st1] eqn:Hrun.
    + rewrite (add_user_to_team_after_lookup srv user team st st1 l Hrun).
      simpl in Hid, Hsent.
      destruct (existsb _ _); simpl;
        [split; [exact Hid|]; split; [exact Hsent|]; discriminate|].
      split; [exact Hid|]. split; [|discriminate].
      apply (sent_only_trans _ st st1); [done|].
      apply sent_only_send. simpl. by destruct Hid as (_ & _ & -> & _).
    + unfold add_user_to_team. unfold_monad. rewrite Hrun.
      simpl in *. split; [exact Hid|]. split; [exact Hsent|]. discriminate.
  - destruct (list_images_rec_effect srv
                (Z.to_nat (LIMIT_FOLLOWS - count) + 1) images page count st)
      as (Hself & Hext & rqs & Hsent & Hall & _).
    unfold list_images. split; [by rewrite Hself|].
    split; [by exists rqs|]. done.
  - unfold repo_create. unfold_monad. rewrite checked_effect.
    split; [done|]. split; [apply sent_only_send; reflexivity|].
    intros _. split; [done|apply Hrefl].
  - unfold repo_delete. unfold_monad. rewrite checked_effect.
    split; [done|]. split; [apply sent_only_send; reflexivity|].
    intros _. split; [done|apply Hrefl].
  - unfold repo_update_description. unfold_monad. rewrite checked_effect.
    split; [done|]. split; [apply sent_only_send; reflexivity|].
    intros _. split; [done|apply Hrefl].
  - unfold repo_make_public, _repo_change_visibility. unfold_monad.
    rewrite checked_effect.
    split; [done|]. split; [apply sent_only_send; reflexivity|].
    intros _. split; [done|apply Hrefl].
  - unfold repo_make_private, _repo_change_visibility. unfold_monad.
    rewrite checked_effect.
    split; [done|]. split; [apply sent_only_send; reflexivity|].
    intros _. split; [done|apply Hrefl].
  - rewrite get_repo_team_permissions_state.
    split; [done|]. split; [apply sent_only_send; reflexivity|].
    intros _. split; [done|apply Hrefl].
  - unfold set_repo_team_permissions. unfold_monad. rewrite checked_effect.
    split; [done|]. split; [apply sent_only_send; reflexivity|].
    intros _. split; [done|apply Hrefl].
Qed.

Lemma calls_effect (srv : Server) :
  ∀ cs st,
    same_identity (self (state_after_all srv cs st)) (self st) ∧
    sent_only (fun rq => headers rq = auth_header (self st))
              st (state_after_all srv cs st) ∧
    (forallb (fun c => negb (uses_cache c)) cs = true →
     self (state_after_all srv cs st) = self st ∧
     ∀ l ms, heap st !! l = Some ms →
             Forall (fun c => accumulator_of c ≠ Some l) cs →
             heap (state_after_all srv cs st) !! l = Some ms).
Proof.
  unfold same_identity.
  induction cs as [|c cs IH]; intros st; cbn [state_after_all forallb].
  { split; [done|]. split; [apply sent_only_refl|done]. }
  destruct (call_effect srv c st) as (Hid & Hsent & Hframe).
  destruct (IH (state_after srv c st)) as (Hid' & Hsent' & Hframe').
  unfold same_identity in Hid.
  destruct Hid as (Ht & Ho & Ha & Hu), Hid' as (Ht' & Ho' & Ha' & Hu').
  split; [by rewrite Ht', Ho', Ha', Hu'|]. split.
  - apply (sent_only_trans _ st (state_after srv c st)); [done|].
    by rewrite <- Ha.
  - intros [Hc Hcs]%andb_true_iff. apply negb_true_iff in Hc.
    destruct (Hframe Hc) as [Hs Hh], (Hframe' Hcs) as [Hs' Hh'].
    split; [by rewrite Hs'|].
    intros l ms Hl Hacc. apply Forall_cons in Hacc as [Hacc Haccs].
    apply Hh'; [|done].
    specialize (Hh l ms Hl). by rewrite decide_False in Hh.
Qed.

(** X16.  On a client constructed with a token, whatever calls are made
    and in whatever order, whether they return or raise: every request
    sent carries exactly the header [Authorization: Bearer <token>], and
    the token, the organization, the header and the base URL of the client
    never change. *)
Theorem every_request_is_authorized (srv : Server) (cs : list call)
        (tok org : string) (base_url : option string)
        (objects : list (list value)) (log : list Request) :
  let st := mkState (QuayApi_init tok org base_url) objects log in
  let st' := state_after_all srv cs st in
  sent_only (fun rq => headers rq = [("Authorization", "Bearer " +:+ tok)])
            st st' ∧
  same_identity (self st') (QuayApi_init tok org base_url).
Proof.
  cbv zeta.
  destruct (calls_effect srv cs
              (mkState (QuayApi_init tok org base_url) objects log))
    as (Hid & Hsent & _).
  by split.
Qed.

(** X17.  Only [list_team_members] and [add_user_to_team] change the
    member cache mapping: after any sequence of the other calls
    ([user_exists], [remove_user_from_team], [list_images], the repository
    and permission calls) the mapping is what it was, and every list
    object keeps its members unless it was handed to [list_images] as its
    accumulator, which [list_images] extends in place, also when it is a
    cached member list. *)
Theorem other_calls_keep_cache (srv : Server) (cs : list call)
        (st : State) :
  forallb (fun c => negb (uses_cache c)) cs = true →
  self (state_after_all srv cs st) = self st ∧
  ∀ l ms, heap st !! l = Some ms →
          Forall (fun c => accumulator_of c ≠ Some l) cs →
          heap (state_after_all srv cs st) !! l = Some ms.
Proof. intros Hcs. by apply calls_effect. Qed.

Lemma other_calls_keep_cache_witness :
  let cs := [RemoveUserFromTeam "alice" "blue";
             ListImages None VNone 0;
             RepoMakePrivate "app";
             GetRepoTeamPermissions "app" "blue";
             UserExists "alice"] in
  let st := QuayScenario.fetched ["alice"] in
  forallb (fun c => negb (uses_cache c)) cs = true ∧
  self (state_after_all looping cs st) = self st ∧
  heap (state_after_all looping cs st) !! 0%nat = Some [VStr "alice"].
Proof.
  assert (H : forallb (fun c => negb (uses_cache c))
                [RemoveUserFromTeam "alice" "blue";
                 ListImages None VNone 0;
                 RepoMakePrivate "app";
                 GetRepoTeamPermissions "app" "blue";
                 UserExists "alice"] = true) by reflexivity.
  split; [exact H|].
  destruct (other_calls_keep_cache looping
              [RemoveUserFromTeam "alice" "blue";
               ListImages None VNone 0;
               RepoMakePrivate "app";
               GetRepoTeamPermissions "app" "blue";
               UserExists "alice"]
              (QuayScenario.fetched ["alice"]) H) as [Hself Hheap].
  split; [exact Hself|].
  apply Hheap; [reflexivity|]. repeat constructor; discriminate.
Defined.

(** X18.  The repository calls and [set_repo_team_permissions] send one
    request each and look at nothing but its status: they return nothing
    when it is outside 400 to 599 and raise the generic error, with the
    status and the body, when it is inside.  [repo_create] asks for
    visibility [public] or [private] after its flag, and
    [repo_make_public] and [repo_make_private] post that word to
    [changevisibility]. *)
Theorem repository_calls_check_status (srv : Server) (st : State)
        (repo_name description team role : string) (public : bool) :
  let auth := auth_header (self st) in
  let one rq := (status_only (srv (sent st) rq), after_send st rq) in
  let visibility v :=
    mkRequest POST (repo_url st repo_name +:+ "/changevisibility") []
              (Some (VDict [("visibility", VStr v)])) auth in
  repo_create srv repo_name description public st
  = one (mkRequest POST (API_URL (self st) +:+ "/repository") []
           (Some (VDict [("repo_kind", VStr "image");
                         ("namespace", VStr (organization (self st)));
                         ("visibility",
                          VStr (if public then "public" else "private"));
                         ("repository", VStr repo_name);
                         ("description", VStr description)])) auth) ∧
  repo_delete srv repo_name st
  = one (mkRequest DELETE (repo_url st repo_name) [] None auth) ∧
  repo_update_description srv repo_name description st
  = one (mkRequest PUT (repo_url st repo_name) []
           (Some (VDict [("description", VStr description)])) auth) ∧
  repo_make_public srv repo_name st = one (visibility "public") ∧
  repo_make_private srv repo_name st = one (visibility "private") ∧
  set_repo_team_permissions srv repo_name team role st
  = one (mkRequest PUT (team_permission_url st repo_name team) []
           (Some (VDict [("role", VStr role)])) auth).
Proof.
  cbv zeta.
  unfold repo_create, repo_delete, repo_update_description, repo_make_public,
    repo_make_private, _repo_change_visibility, set_repo_team_permissions.
  unfold_monad. rewrite !checked_effect.
  repeat split; by destruct public.
Qed.

(** X19.  [get_repo_team_permissions] never returns an empty role: what
    it returns is [None] or a truthy value (a role that the body gives as
    an empty string, [null], [0] or [false] comes back as [None]); and it
    sends exactly one request. *)
Theorem get_repo_team_permissions_none_or_truthy (srv : Server)
        (repo_name team : string) (st : State) :
  (get_repo_team_permissions srv repo_name team st).2
  = after_send st (permission_request st repo_name team) ∧
  match (get_repo_team_permissions srv repo_name team st).1 with
  | Ok role => role = VNone ∨ truthy role = true
  | Raise _ => True
  end.
Proof.
  split; [apply get_repo_team_permissions_state|].
  unfold get_repo_team_permissions, send, response_json, getitem, dict_get.
  unfold_monad. simpl.
  destruct (ok _); simpl.
  - destruct (body _) as [[| | | |l|d]|]; simpl; try done.
    destruct (truthy _) eqn:Hrole; [by right|by left].
  - destruct (body _) as [[| | | |l|d]|]; simpl; try done.
    destruct (assoc "message" d); simpl; [|done].
    destruct (eq_str _ _); [by left|done].
Qed.

(** X20.  A failure that cannot be read is not reported as the generic
    error.  When [get_repo_team_permissions] is answered with a status
    from 400 to 599, it raises the JSON decoding error if the body is not
    JSON and [KeyError('message')] if the body is an object without a
    [message] field. *)
Theorem get_repo_team_permissions_unreadable_failure (srv : Server)
        (repo_name team : string) (st : State) :
  let r := srv (sent st) (permission_request st repo_name team) in
  ok r = false →
  match body r with
  | None =>
      (get_repo_team_permissions srv repo_name team st).1
      = Raise JSONDecodeError
  | Some (VDict d) =>
      assoc "message" d = None →
      (get_repo_team_permissions srv repo_name team st).1
      = Raise (KeyError "message")
  | Some _ =>
      ∃ msg, (get_repo_team_permissions srv repo_name team st).1
             = Raise (TypeError msg)
  end.
Proof.
  intros r Hok.
  unfold get_repo_team_permissions, send, response_json, getitem, dict_get.
  unfold_monad. fold r. simpl. rewrite Hok. simpl.
  destruct (body r) as [[| | | |l|d]|]; simpl; eauto.
  by intros ->.
Qed.

Lemma get_repo_team_permissions_unreadable_failure_witness :
  let r := mkResponse 500 "{}" (Some (VDict [])) in
  ok r = false ∧
  (assoc "message" [] = None →
   (get_repo_team_permissions (QuayScenario.always r) "app" "blue"
                              QuayScenario.st0).1
   = Raise (KeyError "message")).
Proof.
  assert (H : ok (mkResponse 500 "{}" (Some (VDict []))) = false)
    by reflexivity.
  split; [exact H|].
  exact (get_repo_team_permissions_unreadable_failure
           (QuayScenario.always (mkResponse 500 "{}" (Some (VDict []))))
           "app" "blue" QuayScenario.st0 H).
Defined.

(** X21.  The same holds for the team DELETE of [remove_user_from_team]:
    answered with a status from 400 to 599 and a body that is not JSON, or
    an object without a [message] field, it raises the JSON decoding
    error, or [KeyError('message')], and the organization DELETE is not
    sent. *)
Theorem remove_user_from_team_unreadable_failure (srv : Server)
        (user team : string) (st : State) :
  let rq := team_delete_request st user team in
  let r := srv (sent st) rq in
  ok r = false →
  match body r with
  | None =>
      remove_user_from_team srv user team st
      = (Raise JSONDecodeError, after_send st rq)
  | Some (VDict d) =>
      assoc "message" d = None →
      remove_user_from_team srv user team st
      = (Raise (KeyError "message"), after_send st rq)
  | Some _ =>
      ∃ msg, remove_user_from_team srv user team st
             = (Raise (TypeError msg), after_send st rq)
  end.
Proof.
  intros rq r Hok.
  unfold remove_user_from_team, send, response_json, getitem.
  unfold_monad. fold rq. fold r. simpl. rewrite Hok. simpl.
  destruct (body r) as [[| | | |l|d]|]; simpl; eauto.
  by intros ->.
Qed.

Lemma remove_user_from_team_unreadable_failure_witness :
  let srv := QuayScenario.always QuayScenario.bad_gateway in
  let rq := team_delete_request QuayScenario.st0 "bob" "blue" in
  ok (srv (sent QuayScenario.st0) rq) = false ∧
  remove_user_from_team srv "bob" "blue" QuayScenario.st0
  = (Raise JSONDecodeError, after_send QuayScenario.st0 rq).
Proof.
  assert (H : ok (QuayScenario.always QuayScenario.bad_gateway
                    (sent QuayScenario.st0)
                    (team_delete_request QuayScenario.st0 "bob" "blue"))
              = false) by reflexivity.
  split; [exact H|].
  exact (remove_user_from_team_unreadable_failure
           (QuayScenario.always QuayScenario.bad_gateway) "bob" "blue"
           QuayScenario.st0 H).
Defined.
